(* Verification development for the ROR affiliation matcher
   (crate datacite_ror): the fingerprint function, the registry client
   (src/query/client.rs), the checkpoint store (src/query/checkpoint.rs),
   the query orchestrator (src/query/mod.rs), the record parser
   (src/extract/parser.rs) and the per-file extraction loop
   (src/extract/mod.rs). *)

From Stdlib Require Import String Ascii NArith List Lia Sorting.Sorted.
From stdpp Require Import base gmap sets list strings.

Import ListNotations.
Open Scope N_scope.

(* ------------------------------------------------------------------ *)
(* String helpers shared by all modules                               *)
(* ------------------------------------------------------------------ *)

(** [s.as_bytes()]: the UTF-8 bytes of a string; a Rocq string is its
    byte sequence. *)
Definition as_bytes (s : string) : list Byte.byte :=
  map Ascii.byte_of_ascii (list_ascii_of_string s).

(** The double quote character, written by code point. *)
Definition dquote : string := String "034"%char EmptyString.

(** [str::contains] for a string pattern. *)
Fixpoint contains (s pat : string) : bool :=
  if String.prefix pat s then true
  else match s with
       | EmptyString => false
       | String _ s' => contains s' pat
       end.

(** Lower-case hexadecimal digit of a nibble. *)
Definition hex_digit (d : N) : ascii :=
  if d <? 10 then ascii_of_N (48 + d) else ascii_of_N (87 + d).

(** The digits of [n] in base 16, most significant first, at least one
    digit: the [LowerHex] rendering of an unsigned integer.  [fuel] bounds
    the number of digits (64 is more than a [u64] can have). *)
Fixpoint hex_go (fuel : nat) (n : N) (acc : string) : string :=
  match fuel with
  | O => acc
  | S f =>
      let acc' := String (hex_digit (n mod 16)) acc in
      if n <? 16 then acc' else hex_go f (n / 16) acc'
  end.

Definition to_lower_hex (n : N) : string := hex_go 64 n EmptyString.

(** Zero padding on the left up to [width] characters, the ["0"] flag of
    a format spec without sign or prefix. *)
Definition pad_zero (width : nat) (s : string) : string :=
  (string_of_list_ascii (repeat "0"%char (width - String.length s)) ++ s)%string.

(** [format!("{:016x}", n)]. *)
Definition format_016x (n : N) : string := pad_zero 16 (to_lower_hex n).

Definition is_lower_hex_char (c : ascii) : bool :=
  let k := N_of_ascii c in ((48 <=? k) && (k <=? 57)) || ((97 <=? k) && (k <=? 102)).

Fixpoint is_lower_hex (s : string) : bool :=
  match s with
  | EmptyString => true
  | String c s' => is_lower_hex_char c && is_lower_hex s'
  end.

(* ------------------------------------------------------------------ *)
(* src/lib.rs: the crate-level fingerprint                            *)
(* ------------------------------------------------------------------ *)

Module Lib.
Section Hash.
(** [xxhash_rust::xxh3::xxh3_64], an external crate: any function from
    bytes to a [u64]. *)
Variable xxh3_64 : list Byte.byte -> N.

(** [pub fn hash_affiliation(affiliation: &str) -> String] *)
Definition hash_affiliation (affiliation : string) : string :=
  format_016x (xxh3_64 (as_bytes affiliation)).
End Hash.
End Lib.

(* ------------------------------------------------------------------ *)
(* src/query/client.rs: the registry client                           *)
(* ------------------------------------------------------------------ *)

Module Client.

(** [Result<T>] of [anyhow]: the error is kept as its [to_string()]. *)
Inductive result (A : Type) : Type :=
| Ok (a : A)
| Err (e : string).
Arguments Ok {A} a.
Arguments Err {A} e.

(** The JSON body of a search response. *)
Record RorOrganization := { id : string }.
Record RorItem := { chosen : option bool; organization : option RorOrganization }.
Record RorResponse := { items : list RorItem }.

(** What one HTTP round trip produces: a transport error (reqwest's error
    message), or a response with its status, its [Retry-After] header and
    its body, [inl msg] when the body does not decode as a [RorResponse]. *)
Inductive reply :=
| TransportError (msg : string)
| Response (status : N) (retry_after : option string)
           (body : string + RorResponse).

(** Observable effects of the client: GET requests and sleeps. *)
Inductive event :=
| Request (url : string)
| Sleep (secs : N).

Definition trace := list event.

(** The registry: its reply to a GET of [url], given every event so far. *)
Definition Server := trace -> string -> reply.

(** Canonical reason phrases of the [http] crate's [StatusCode]. *)
Definition reason_table : list (N * string) :=
  [(100, "Continue"); (101, "Switching Protocols"); (102, "Processing");
   (200, "OK"); (201, "Created"); (202, "Accepted");
   (203, "Non Authoritative Information"); (204, "No Content");
   (205, "Reset Content"); (206, "Partial Content"); (207, "Multi-Status");
   (208, "Already Reported"); (226, "IM Used");
   (300, "Multiple Choices"); (301, "Moved Permanently"); (302, "Found");
   (303, "See Other"); (304, "Not Modified"); (305, "Use Proxy");
   (307, "Temporary Redirect"); (308, "Permanent Redirect");
   (400, "Bad Request"); (401, "Unauthorized"); (402, "Payment Required");
   (403, "Forbidden"); (404, "Not Found"); (405, "Method Not Allowed");
   (406, "Not Acceptable"); (407, "Proxy Authentication Required");
   (408, "Request Timeout"); (409, "Conflict"); (410, "Gone");
   (411, "Length Required"); (412, "Precondition Failed");
   (413, "Payload Too Large"); (414, "URI Too Long");
   (415, "Unsupported Media Type"); (416, "Range Not Satisfiable");
   (417, "Expectation Failed"); (418, "I'm a teapot");
   (421, "Misdirected Request"); (422, "Unprocessable Entity");
   (423, "Locked"); (424, "Failed Dependency"); (426, "Upgrade Required");
   (428, "Precondition Required"); (429, "Too Many Requests");
   (431, "Request Header Fields Too Large");
   (451, "Unavailable For Legal Reasons");
   (500, "Internal Server Error"); (501, "Not Implemented");
   (502, "Bad Gateway"); (503, "Service Unavailable");
   (504, "Gateway Timeout"); (505, "HTTP Version Not Supported");
   (506, "Variant Also Negotiates"); (507, "Insufficient Storage");
   (508, "Loop Detected"); (510, "Not Extended");
   (511, "Network Authentication Required")]%string.

Definition canonical_reason (st : N) : option string :=
  option_map snd (List.find (fun p => N.eqb (fst p) st) reason_table).

(** Decimal digits of [n]. *)
Fixpoint dec_go (fuel : nat) (n : N) (acc : string) : string :=
  match fuel with
  | O => acc
  | S f =>
      let acc' := String (ascii_of_N (48 + n mod 10)) acc in
      if n <? 10 then acc' else dec_go f (n / 10) acc'
  end.

Definition string_of_N (n : N) : string := dec_go 32 n EmptyString.

(** [impl Display for StatusCode]. *)
Definition status_display (st : N) : string :=
  (string_of_N st ++ " " ++
   match canonical_reason st with
   | Some r => r
   | None => "<unknown status code>"
   end)%string.

Definition is_success (st : N) : bool := (200 <=? st) && (st <? 300).

(** [HeaderValue::to_str]: only visible ASCII (and tab) is accepted. *)
Definition header_to_str (v : string) : option string :=
  if forallb (fun c => let k := N_of_ascii c in
                       (k =? 9) || ((32 <=? k) && (k <? 127)))
             (list_ascii_of_string v)
  then Some v else None.

(** The digit loop of [u64::from_str], with its overflow check. *)
Fixpoint parse_digits (s : string) (acc : N) : option N :=
  match s with
  | EmptyString => Some acc
  | String c s' =>
      let k := N_of_ascii c in
      if (48 <=? k) && (k <=? 57) then
        let acc' := acc * 10 + (k - 48) in
        if acc' <? 2 ^ 64 then parse_digits s' acc' else None
      else None
  end.

(** [str::parse::<u64>]: empty input, a lone sign, a minus sign, a
    non-digit or an overflow is an error. *)
Definition parse_u64 (s : string) : option N :=
  match s with
  | EmptyString => None
  | String c EmptyString =>
      if (Ascii.eqb c "+") || (Ascii.eqb c "-") then None
      else parse_digits s 0
  | String c rest =>
      if Ascii.eqb c "+" then parse_digits rest 0 else parse_digits s 0
  end.

(** [urlencoding::encode]: alphanumerics and [-._~] kept, every other byte
    as [%XX] with upper-case hex digits. *)
Definition upper_hex_digit (d : N) : ascii :=
  if d <? 10 then ascii_of_N (48 + d) else ascii_of_N (55 + d).

Definition url_unreserved (k : N) : bool :=
  ((48 <=? k) && (k <=? 57)) || ((65 <=? k) && (k <=? 90)) ||
  ((97 <=? k) && (k <=? 122)) || (k =? 45) || (k =? 46) || (k =? 95) ||
  (k =? 126).

Fixpoint encode (s : string) : string :=
  match s with
  | EmptyString => EmptyString
  | String c s' =>
      let k := N_of_ascii c in
      if url_unreserved k then String c (encode s')
      else String "%" (String (upper_hex_digit (k / 16))
                        (String (upper_hex_digit (k mod 16)) (encode s')))
  end.

(** [fn extract_chosen_ror_id]: the first item flagged [chosen: true],
    then its organization's id (no further search if that item has no
    organization). *)
Definition is_chosen (it : RorItem) : bool :=
  match chosen it with Some true => true | _ => false end.

Definition extract_chosen_ror_id (response : RorResponse) : option string :=
  match List.find is_chosen (items response) with
  | Some item => option_map id (organization item)
  | None => None
  end.

Definition max_retries : nat := 3.

(** The [for attempt in 0..max_retries] loop of [fn make_request];
    [fuel] is the number of attempts left. *)
Fixpoint make_request_loop (srv : Server) (url : string) (attempt fuel : nat)
    (tr : trace) : result (option string) * trace :=
  match fuel with
  | O => (Err "Max retries exceeded", tr)
  | S fuel' =>
      let tr1 := tr ++ [Request url] in
      match srv tr url with
      | Response status retry_after body =>
          if is_success status then
            match body with
            | inl e => (Err e, tr1)
            | inr ror_response => (Ok (extract_chosen_ror_id ror_response), tr1)
            end
          else if 500 <=? status then
            (Err ("HTTP " ++ status_display status)%string, tr1)
          else if status =? 429 then
            let wait :=
              match option_bind _ _ parse_u64
                      (option_bind _ _ header_to_str retry_after) with
              | Some w => w
              | None => 2 ^ N.of_nat attempt
              end in
            make_request_loop srv url (S attempt) fuel' (tr1 ++ [Sleep wait])
          else (Err ("HTTP " ++ status_display status)%string, tr1)
      | TransportError e =>
          if Nat.ltb attempt (max_retries - 1) then
            make_request_loop srv url (S attempt) fuel'
              (tr1 ++ [Sleep (2 ^ N.of_nat attempt)])
          else (Err e, tr1)
      end
  end.

(** [async fn make_request(&self, url: &str) -> Result<Option<String>>] *)
Definition make_request (srv : Server) (url : string) (tr : trace)
    : result (option string) * trace :=
  make_request_loop srv url 0 max_retries tr.

(** The four request shapes of [query_affiliation]. *)
Definition quoted_single_url (base_url affiliation : string) : string :=
  (base_url ++ "/v2/organizations?affiliation=" ++ dquote ++ encode affiliation
   ++ dquote ++ "&single_search")%string.

Definition unquoted_single_url (base_url affiliation : string) : string :=
  (base_url ++ "/v2/organizations?affiliation=" ++ encode affiliation
   ++ "&single_search")%string.

Definition quoted_multi_url (base_url affiliation : string) : string :=
  (base_url ++ "/v2/organizations?affiliation=" ++ dquote ++ encode affiliation
   ++ dquote)%string.

Definition unquoted_multi_url (base_url affiliation : string) : string :=
  (base_url ++ "/v2/organizations?affiliation=" ++ encode affiliation)%string.

(** Phase 3 of [query_affiliation], the [if fallback_multi] block. *)
Definition phase3 (srv : Server) (base_url affiliation : string)
    (fallback_multi : bool) (tr : trace) : result (option string) * trace :=
  if fallback_multi then
    let (r, tr1) := make_request srv (quoted_multi_url base_url affiliation) tr in
    match r with
    | Ok ror_id => (Ok ror_id, tr1)
    | Err _ => make_request srv (unquoted_multi_url base_url affiliation) tr1
    end
  else (Ok None, tr).

(** [pub async fn query_affiliation(&self, affiliation, fallback_multi)].
    The semaphore permit is not modelled: the semaphore is never closed,
    so [acquire] never fails. *)
Definition query_affiliation (srv : Server) (base_url affiliation : string)
    (fallback_multi : bool) (tr : trace) : result (option string) * trace :=
  let (r1, tr1) := make_request srv (quoted_single_url base_url affiliation) tr in
  match r1 with
  | Ok (Some ror_id) => (Ok (Some ror_id), tr1)
  | Ok None => phase3 srv base_url affiliation fallback_multi tr1
  | Err e =>
      if contains e "500" then
        let (r2, tr2) :=
          make_request srv (unquoted_single_url base_url affiliation) tr1 in
        match r2 with
        | Ok (Some ror_id) => (Ok (Some ror_id), tr2)
        | Ok None => phase3 srv base_url affiliation fallback_multi tr2
        | Err e2 =>
            if negb fallback_multi then (Err e2, tr2)
            else phase3 srv base_url affiliation fallback_multi tr2
        end
      else if negb fallback_multi then (Err e, tr1)
      else phase3 srv base_url affiliation fallback_multi tr1
  end.

(** The URLs requested in a trace. *)
Fixpoint requests (tr : trace) : list string :=
  match tr with
  | [] => []
  | Request u :: tr' => u :: requests tr'
  | Sleep _ :: tr' => requests tr'
  end.

(** The four URLs [query_affiliation] builds for one affiliation. *)
Definition query_urls (base_url aff : string) : list string :=
  [quoted_single_url base_url aff; unquoted_single_url base_url aff;
   quoted_multi_url base_url aff; unquoted_multi_url base_url aff].

End Client.

(* ------------------------------------------------------------------ *)
(* src/query/checkpoint.rs: the checkpoint store                      *)
(* ------------------------------------------------------------------ *)

Module Checkpoint.

(** The file system: each existing file's path and contents.  Files are
    always readable; I/O failures are modelled by the orchestrator. *)
Abbreviation FS := (gmap string string).

(** [pub struct Checkpoint { path: PathBuf, processed: HashSet<String> }] *)
Record Checkpoint := { path : string; processed : gset string }.

(** [Checkpoint::new] *)
Definition new (p : string) : Checkpoint := {| path := p; processed := ∅ |}.

Definition newline : ascii := "010"%char.
Definition carriage_return : ascii := "013"%char.

(** A line of [BufRead::lines] from its reversed characters: the trailing
    ["\n"] is already gone, and one ["\r"] before it is dropped too. *)
Definition finish_line (cur_rev : list ascii) : string :=
  match cur_rev with
  | c :: rest =>
      if Ascii.eqb c carriage_return then string_of_list_ascii (rev rest)
      else string_of_list_ascii (rev cur_rev)
  | [] => EmptyString
  end.

(** [BufRead::lines]: split after each ["\n"]; a last line without
    ["\n"] is returned as it is, an empty remainder is no line. *)
Fixpoint lines_go (s : string) (cur_rev : list ascii) : list string :=
  match s with
  | EmptyString =>
      match cur_rev with
      | [] => []
      | _ => [string_of_list_ascii (rev cur_rev)]
      end
  | String c s' =>
      if Ascii.eqb c newline then finish_line cur_rev :: lines_go s' []
      else lines_go s' (c :: cur_rev)
  end.

Definition lines (s : string) : list string := lines_go s [].

(** The [for line in reader.lines()] loop of [load]. *)
Definition insert_lines (ls : list string) : gset string :=
  foldl (fun acc hash => if String.eqb hash EmptyString then acc
                         else {[hash]} ∪ acc) ∅ ls.

(** [Checkpoint::load]: a missing file gives an empty checkpoint. *)
Definition load (fs : FS) (p : string) : Checkpoint :=
  match fs !! p with
  | None => {| path := p; processed := ∅ |}
  | Some contents => {| path := p; processed := insert_lines (lines contents) |}
  end.

(** [mark_processed], [is_processed], [len] *)
Definition mark_processed (cp : Checkpoint) (hash : string) : Checkpoint :=
  {| path := path cp; processed := {[hash]} ∪ processed cp |}.

Definition is_processed (cp : Checkpoint) (hash : string) : bool :=
  bool_decide (hash ∈ processed cp).

Definition len (cp : Checkpoint) : nat := size (processed cp).

(** The text [save] writes: one [writeln!] per element, in the set's
    iteration order. *)
Definition serialize (hs : list string) : string :=
  foldr (fun h acc => (h ++ String newline acc)%string) EmptyString hs.

(** [Checkpoint::save]: the file at [path] is overwritten. *)
Definition save (cp : Checkpoint) (fs : FS) : FS :=
  <[path cp := serialize (elements (processed cp))]> fs.

(** What [hash_affiliation] produces: 16 lower-case hex digits. *)
Definition is_fingerprint (s : string) : bool :=
  Nat.eqb (String.length s) 16 && is_lower_hex s.

End Checkpoint.

(* ------------------------------------------------------------------ *)
(* src/query/mod.rs: the query orchestrator                           *)
(* ------------------------------------------------------------------ *)

Module Query.
Import Client.

(** [struct RorMatch] and [struct RorMatchFailed] (the failure record's
    fields are prefixed: Rocq projections share one name space). *)
Record RorMatch := {
  affiliation : string; affiliation_hash : string; ror_id : string }.
Record RorMatchFailed := {
  failed_affiliation : string; failed_affiliation_hash : string;
  error : string }.

(** The fields of [QueryArgs] the orchestrator's behaviour depends on;
    the input file is given as its parsed list of affiliations, and the
    concurrency limit and timeout only shape scheduling and transport
    errors. *)
Record QueryArgs := {
  output : string; base_url : string; resume : bool; fallback_multi : bool }.

(** The state a run reads and changes: text files (the checkpoint), the two
    JSONL sinks as their records ([None]: the file does not exist), the
    client's events, and the number of fallible I/O operations done. *)
Record World := {
  files : gmap string string;
  matches_file : option (list RorMatch);
  failed_file : option (list RorMatchFailed);
  net : trace;
  io_ops : nat }.

(** The environment: the registry, which I/O operations fail (by their
    rank in the run: opening, writing a record, flushing, creating the
    checkpoint file, writing it), and how many bytes of the checkpoint text
    reach the file when writing it fails. *)
Record Env := { server : Server; io_fails : nat -> bool; save_written : nat }.

Definition set_net (w : World) (tr : trace) : World :=
  {| files := files w; matches_file := matches_file w;
     failed_file := failed_file w; net := tr; io_ops := io_ops w |}.

Definition set_matches (w : World) (m : option (list RorMatch)) : World :=
  {| files := files w; matches_file := m;
     failed_file := failed_file w; net := net w; io_ops := io_ops w |}.

Definition set_failed (w : World) (f : option (list RorMatchFailed)) : World :=
  {| files := files w; matches_file := matches_file w;
     failed_file := f; net := net w; io_ops := io_ops w |}.

Definition set_files (w : World) (fs : gmap string string) : World :=
  {| files := fs; matches_file := matches_file w;
     failed_file := failed_file w; net := net w; io_ops := io_ops w |}.

(** One fallible I/O operation: [true] when it succeeds. *)
Definition io (env : Env) (w : World) : bool * World :=
  (negb (io_fails env (io_ops w)),
   {| files := files w; matches_file := matches_file w;
      failed_file := failed_file w; net := net w; io_ops := S (io_ops w) |}).

Section Orchestrator.
Variable xxh3_64 : list Byte.byte -> N.

(** [fn hash_affiliation] of the query module. *)
Definition hash_affiliation (affiliation : string) : string :=
  format_016x (xxh3_64 (as_bytes affiliation)).

(** [writeln!(writer, ...)] on a sink: on an I/O error the error is
    logged and the record is not written. *)
Definition write_match (env : Env) (w : World) (rec : RorMatch) : World :=
  let (ok, w1) := io env w in
  if ok then set_matches w1 (option_map (fun l => l ++ [rec]) (matches_file w1))
  else w1.

Definition write_failed (env : Env) (w : World) (rec : RorMatchFailed) : World :=
  let (ok, w1) := io env w in
  if ok then set_failed w1 (option_map (fun l => l ++ [rec]) (failed_file w1))
  else w1.

(** The body of the task spawned for one [(affiliation, hash)]: query,
    write the outcome record, then mark the hash processed. *)
Definition spawned_task (env : Env) (args : QueryArgs)
    (st : Checkpoint.Checkpoint * World) (job : string * string)
    : Checkpoint.Checkpoint * World :=
  let (cp, w) := st in
  let (aff, hash) := job in
  let (r, tr) := query_affiliation (server env) (base_url args) aff
                   (fallback_multi args) (net w) in
  let w1 := set_net w tr in
  let w2 :=
    match r with
    | Ok (Some id) =>
        write_match env w1
          {| affiliation := aff; affiliation_hash := hash; ror_id := id |}
    | Ok None =>
        write_failed env w1
          {| failed_affiliation := aff; failed_affiliation_hash := hash;
             error := "No match found" |}
    | Err e =>
        write_failed env w1
          {| failed_affiliation := aff; failed_affiliation_hash := hash;
             error := e |}
    end in
  (Checkpoint.mark_processed cp hash, w2).

Definition checkpoint_path (args : QueryArgs) : string :=
  (output args ++ "/ror_matches.checkpoint")%string.

(** Opening one sink: append when resuming and the file exists, else
    create (truncate). *)
Definition open_sink {R} (env : Env) (resume : bool) (cur : option (list R))
    (w : World) : World + (option (list R) * World) :=
  let (ok, w1) := io env w in
  if ok then
    inr (match cur with
         | Some l => if resume then Some l else Some []
         | None => Some []
         end, w1)
  else inl w1.

(** [pub async fn run_async(args)] on the parsed input list.  The tasks
    run concurrently in the source; here they run one after another in
    spawn order, one of the schedules the runtime may pick, each task's
    own steps in the order of its body.  [handle.await] never reports a
    failure: the task body does not panic. *)
Definition run_async (env : Env) (args : QueryArgs)
    (affiliations : list string) (w0 : World) : result unit * World :=
  let (ok_dir, w1) := io env w0 in
  if negb ok_dir then (Err "Failed to create output directory", w1) else
  let cpath := checkpoint_path args in
  let loaded :=
    if resume args && bool_decide (is_Some (files w1 !! cpath)) then
      let (ok, w2) := io env w1 in
      if ok then inr (Checkpoint.load (files w2) cpath, w2) else inl w2
    else inr (Checkpoint.new cpath, w1) in
  match loaded with
  | inl w2 => (Err "Failed to load checkpoint", w2)
  | inr (checkpoint, w2) =>
  let to_process :=
    filter (fun job => negb (Checkpoint.is_processed checkpoint (snd job)))
      (map (fun aff => (aff, hash_affiliation aff)) affiliations) in
  if Nat.eqb (length to_process) 0 then (Ok tt, w2) else
  match open_sink env (resume args) (matches_file w2) w2 with
  | inl w3 =>
      (Err (if resume args && bool_decide (is_Some (matches_file w2))
            then "Failed to open matches file for append"
            else "Failed to create matches file"), w3)
  | inr (m, w3) =>
  let w3 := set_matches w3 m in
  match open_sink env (resume args) (failed_file w3) w3 with
  | inl w4 =>
      (Err (if resume args && bool_decide (is_Some (failed_file w3))
            then "Failed to open failed file for append"
            else "Failed to create failed file"), w4)
  | inr (f, w4) =>
  let w4 := set_failed w4 f in
  let (cp, w5) := foldl (spawned_task env args) (checkpoint, w4) to_process in
  let (ok_m, w6) := io env w5 in
  if negb ok_m then (Err "Failed to flush matches file", w6) else
  let (ok_f, w7) := io env w6 in
  if negb ok_f then (Err "Failed to flush failed file", w7) else
  (* [cp.save()]: [File::create] truncates the file, then the [writeln!]s
     and the [flush] write the text; when they fail, only a prefix of the
     text has reached the file. *)
  let (ok_c, w8) := io env w7 in
  if negb ok_c then (Err "Failed to save checkpoint", w8) else
  let (ok_s, w9) := io env w8 in
  if negb ok_s then
    (Err "Failed to save checkpoint",
     set_files w9 (<[Checkpoint.path cp :=
                       substring 0 (save_written env)
                         (Checkpoint.serialize (elements (Checkpoint.processed cp)))]>
                     (files w9)))
  else (Ok tt, set_files w9 (Checkpoint.save cp (files w9)))
  end
  end
  end.
End Orchestrator.

End Query.

(* ------------------------------------------------------------------ *)
(* serde_json::Value and the accessors the extractor uses             *)
(* ------------------------------------------------------------------ *)

(** [str::split(c)] for a character separator: every piece, empty ones
    included, so a string with k separators gives k + 1 pieces. *)
Fixpoint split_on (sep : ascii) (s : string) : list string :=
  match s with
  | EmptyString => [EmptyString]
  | String c s' =>
      let rest := split_on sep s' in
      if Ascii.eqb c sep then EmptyString :: rest
      else match rest with
           | [] => [String c EmptyString]
           | t :: ts => String c t :: ts
           end
  end.

(** [str::replace(pat, rep)] for a two-character pattern [a b] and a
    one-character replacement [r], scanning left to right without
    overlap. *)
Fixpoint replace2 (a b r : ascii) (s : string) : string :=
  match s with
  | String x ((String y s'') as s') =>
      if Ascii.eqb x a && Ascii.eqb y b then String r (replace2 a b r s'')
      else String x (replace2 a b r s')
  | _ => s
  end.

(** [str::parse::<usize>()] on a string of decimal digits; [acc] is the
    value of the digits read so far. *)
Fixpoint parse_digits (s : string) (acc : nat) : option nat :=
  match s with
  | EmptyString => Some acc
  | String c s' =>
      let k := nat_of_ascii c in
      if (48 <=? k)%nat && (k <=? 57)%nat then parse_digits s' (acc * 10 + (k - 48))%nat
      else None
  end.

(** serde_json's [parse_index]: no sign, no leading zero, at least one
    digit.  Rust also fails on a number above [usize::MAX]; such an
    index is past the end of every array, so the lookup that follows
    fails in both cases. *)
Definition parse_index (s : string) : option nat :=
  match s with
  | EmptyString => None
  | String c s' =>
      if Ascii.eqb c "+" then None
      else if Ascii.eqb c "0" then (match s' with EmptyString => Some 0%nat | _ => None end)
      else parse_digits s 0
  end.

Module Json.

(** [serde_json::Value].  A number keeps its textual form: the extractor
    never reads numbers.  An object is the list of its entries; a
    [serde_json::Map] has one entry per key, and [assoc_get] returns the
    first binding of a key. *)
#[warnings="-register-all"]
Inductive Value : Type :=
| Null
| Bool (b : bool)
| Number (n : string)
| String (s : string)
| Array (vs : list Value)
| Object (m : list (string * Value)).

Fixpoint assoc_get (k : string) (m : list (string * Value)) : option Value :=
  match m with
  | [] => None
  | (k', v) :: m' => if String.eqb k k' then Some v else assoc_get k m'
  end.

(** [Value::get(&str)]: the entry of an object, [None] on anything else. *)
Definition get (v : Value) (k : string) : option Value :=
  match v with
  | Object m => assoc_get k m
  | _ => None
  end.

(** [Value::as_str] *)
Definition as_str (v : Value) : option string :=
  match v with
  | String s => Some s
  | _ => None
  end.

(** One step of [Value::pointer]: an object is indexed by the token, an
    array by the token read as an index. *)
Definition pointer_step (target : Value) (token : string) : option Value :=
  match target with
  | Object m => assoc_get token m
  | Array l => match parse_index token with
               | Some i => nth_error l i
               | None => None
               end
  | _ => None
  end.

(** The token unescaping of a JSON pointer: [~1] becomes [/], then [~0]
    becomes [~]. *)
Definition unescape (token : string) : string :=
  replace2 "~" "0" "~" (replace2 "~" "1" "/" token).

(** [Value::pointer]: the empty pointer is the value itself; otherwise
    the pointer starts with [/] and the tokens after it are followed in
    turn ([try_fold]). *)
Definition pointer (v : Value) (p : string) : option Value :=
  match p with
  | EmptyString => Some v
  | Stdlib.Strings.String.String c rest =>
      if Ascii.eqb c "/" then
        fold_left (fun acc token => match acc with
                                    | Some target => pointer_step target (unescape token)
                                    | None => None
                                    end)
                  (split_on "/" rest) (Some v)
      else None
  end.

End Json.

(* ------------------------------------------------------------------ *)
(* src/extract/parser.rs: affiliation records of a DataCite record    *)
(* ------------------------------------------------------------------ *)

Module Parser.
Import Json.

(** [AuthorAffiliationRecord] (src/lib.rs) as the struct literal of
    [parse_affiliations] fills it: the literal names these six fields and
    sets no [existing_ror_id], so nothing is stated about that field. *)
Record AuthorAffiliationRecord := {
  doi : string;
  author_idx : nat;
  author_name : string;
  affiliation_idx : nat;
  affiliation : string;
  affiliation_hash : string
}.

Section Parse.
Variable xxh3_64 : list Byte.byte -> N.

(** [fn extract_doi(record: &Value) -> Option<String>] *)
Definition extract_doi (record : Value) : option string :=
  match get record "id" ≫= as_str with
  | Some d => Some d
  | None => pointer record "/attributes/doi" ≫= as_str
  end.

(** [fn extract_author_name(creator: &Value) -> Option<String>] *)
Definition extract_author_name (creator : Value) : option string :=
  get creator "name" ≫= as_str.

(** [fn extract_affiliation_name(affiliation: &Value) -> Option<String>] *)
Definition extract_affiliation_name (affiliation : Value) : option string :=
  match affiliation with
  | String s => Some s
  | Object _ => get affiliation "name" ≫= as_str
  | _ => None
  end.

(** The inner loop of [parse_affiliations] over
    [affiliations.iter().enumerate()], pushing onto [results]. *)
Fixpoint affiliation_loop (doi : string) (author_idx : nat) (author_name : string)
    (affiliation_idx : nat) (affiliations : list Value)
    (results : list AuthorAffiliationRecord) : list AuthorAffiliationRecord :=
  match affiliations with
  | [] => results
  | affiliation :: rest =>
      let results' :=
        match extract_affiliation_name affiliation with
        | Some affiliation_name =>
            if negb (String.eqb affiliation_name "") then
              results ++ [{| doi := doi; author_idx := author_idx;
                             author_name := author_name;
                             affiliation_idx := affiliation_idx;
                             affiliation := affiliation_name;
                             affiliation_hash := Lib.hash_affiliation xxh3_64 affiliation_name |}]
            else results
        | None => results
        end in
      affiliation_loop doi author_idx author_name (S affiliation_idx) rest results'
  end.

(** The outer loop over [creators.iter().enumerate()]; a creator without
    a string name or without an affiliation array is skipped
    ([continue]). *)
Fixpoint creator_loop (doi : string) (author_idx : nat) (creators : list Value)
    (results : list AuthorAffiliationRecord) : list AuthorAffiliationRecord :=
  match creators with
  | [] => results
  | creator :: rest =>
      let results' :=
        match extract_author_name creator with
        | None => results
        | Some author_name =>
            match get creator "affiliation" with
            | Some (Array affiliations) =>
                affiliation_loop doi author_idx author_name 0 affiliations results
            | _ => results
            end
        end in
      creator_loop doi (S author_idx) rest results'
  end.

(** [pub fn parse_affiliations(record: &Value) -> Vec<AuthorAffiliationRecord>] *)
Definition parse_affiliations (record : Value) : list AuthorAffiliationRecord :=
  let results := [] in
  match extract_doi record with
  | None => results
  | Some doi =>
      match pointer record "/attributes/creators" with
      | Some (Array creators) => creator_loop doi 0 creators results
      | _ => results
      end
  end.

End Parse.
End Parser.

(* ------------------------------------------------------------------ *)
(* src/extract/mod.rs: process_file, the per-file extraction loop     *)
(* ------------------------------------------------------------------ *)

Module Extract.
Import Client.

(** What [process_file] changes outside itself: the shared set of unique
    affiliations and the batches delivered on the channel, in order. *)
Record FileState := {
  unique : gset string;
  sent : list (list Parser.AuthorAffiliationRecord)
}.

Section ProcessFile.
Variable xxh3_64 : list Byte.byte -> N.
(** [serde_json::from_str::<serde_json::Value>]: [Some] when the line parses. *)
Variable from_str : string -> option Json.Value.
(** [line_str.trim().is_empty()] *)
Variable trim_is_empty : string -> bool.
(** Whether [tx.send] fails because the receiver is gone, given the number
    of batches delivered so far; a gone receiver stays gone, so later
    sends ask the same index again. *)
Variable send_fails : nat -> bool.
Variable batch_size : nat.

(** [unique.insert(aff.affiliation.clone())] for each record. *)
Definition insert_affiliations (u : gset string)
    (affiliations : list Parser.AuthorAffiliationRecord) : gset string :=
  fold_left (fun u aff => {[Parser.affiliation aff]} ∪ u) affiliations u.

(** The [for line in reader.lines()] loop.  A line is [inl] its text or
    [inr] the message of the read error ([line?] returns it).  The result
    is how the loop ends ([Err] for [line?], [Ok] at the end of the input
    or at [break]) and the [batch] left afterwards. *)
Fixpoint lines_loop (lines : list (string + string))
    (batch : list Parser.AuthorAffiliationRecord) (st : FileState)
    : result unit * list Parser.AuthorAffiliationRecord * FileState :=
  match lines with
  | [] => (Ok tt, batch, st)
  | inr e :: _ => (Err e, batch, st)
  | inl line_str :: rest =>
      if trim_is_empty line_str then lines_loop rest batch st
      else match from_str line_str with
           | None => lines_loop rest batch st
           | Some record =>
               let affiliations := Parser.parse_affiliations xxh3_64 record in
               let unique' := if negb (bool_decide (affiliations = [])) then
                                insert_affiliations (unique st) affiliations
                              else unique st in
               let batch' := batch ++ affiliations in
               if (batch_size <=? length batch')%nat then
                 (* [tx.send(std::mem::take(&mut batch))] *)
                 if send_fails (length (sent st)) then
                   (Ok tt, [], {| unique := unique'; sent := sent st |})
                 else lines_loop rest [] {| unique := unique'; sent := sent st ++ [batch'] |}
               else lines_loop rest batch' {| unique := unique'; sent := sent st |}
           end
  end.

(** [fn process_file(filepath, unique_affiliations, tx, batch_size)] once
    the file is open: the loop, then the send of a non-empty last batch
    whose failure is ignored. *)
Definition process_file (lines : list (string + string)) (st : FileState)
    : result unit * FileState :=
  match lines_loop lines [] st with
  | (Err e, _, st') => (Err e, st')
  | (Ok _, batch, st') =>
      if negb (bool_decide (batch = [])) then
        if send_fails (length (sent st')) then (Ok tt, st')
        else (Ok tt, {| unique := unique st'; sent := sent st' ++ [batch] |})
      else (Ok tt, st')
  end.

End ProcessFile.
End Extract.

(* ------------------------------------------------------------------ *)
(* Concrete inputs used to exercise the theorems                      *)
(* ------------------------------------------------------------------ *)

Module Scenarios.
Import Client.

(** A 64-bit FNV-1 style byte hash, standing in for [xxh3_64] where a
    theorem is applied at a concrete hash function. *)
Definition sample_xxh3 (bs : list Byte.byte) : N :=
  fold_left (fun h b => (h * 1099511628211 + Byte.to_N b) mod 2 ^ 64) bs
    14695981039346656037 mod 2 ^ 64.

Definition base : string := "http://localhost:9292".
Definition test_aff : string := "Test University".

Definition chosen_response : RorResponse :=
  {| items := [ {| chosen := Some true;
                   organization := Some {| id := "https://ror.org/abc123" |} |} ] |}.

(** An unflagged candidate, as a broad search returns it. *)
Definition unflagged_response : RorResponse :=
  {| items := [ {| chosen := None;
                   organization := Some {| id := "https://ror.org/xyz789" |} |} ] |}.

Definition empty_response : RorResponse := {| items := [] |}.


(** A registry that always answers 429 without a Retry-After header. *)
Definition srv_always_429 : Server := fun _ _ => Response 429 None (inl "").

(** A registry that answers 429 (Retry-After: 1) to the first request and
    a chosen candidate afterwards. *)
Definition srv_429_once : Server := fun tr _ =>
  match requests tr with
  | [] => Response 429 (Some "1") (inl "")
  | _ => Response 200 None (inr chosen_response)
  end.

(** A registry with no candidate for restrictive searches and one
    unflagged candidate for broad searches. *)
Definition srv_broad_unflagged : Server := fun _ url =>
  if String.eqb url (quoted_single_url base test_aff)
     || String.eqb url (unquoted_single_url base test_aff)
  then Response 200 None (inr empty_response)
  else Response 200 None (inr unflagged_response).

(** A registry that accepts every affiliation. *)
Definition srv_chosen : Server := fun _ _ => Response 200 None (inr chosen_response).

(** A registry that has no candidate for any search. *)
Definition srv_empty : Server := fun _ _ => Response 200 None (inr empty_response).

(** No output file yet. *)
Definition fresh_world : Query.World :=
  {| Query.files := ∅; Query.matches_file := None; Query.failed_file := None;
     Query.net := []; Query.io_ops := 0 |}.


(** A DataCite record whose [id] is null and whose [attributes.doi] is a
    number, with one creator and one affiliation. *)
Definition record_numeric_doi : Json.Value :=
  Json.Object [("id", Json.Null);
               ("attributes", Json.Object
                  [("doi", Json.Number "10");
                   ("creators", Json.Array
                      [Json.Object [("name", Json.String "Ann");
                                    ("affiliation", Json.Array [Json.String "MIT"])]])])].

(** A DataCite record with a DOI and one creator with two affiliations. *)
Definition record_two_affs : Json.Value :=
  Json.Object [("id", Json.String "10.1/a");
               ("attributes", Json.Object
                  [("creators", Json.Array
                      [Json.Object [("name", Json.String "Ann");
                                    ("affiliation", Json.Array
                                       [Json.String "MIT"; Json.String "CMU"])]])])].

(** A line parser that knows two lines: a record with two affiliations
    and a record without creators. *)
Definition sample_from_str (s : string) : option Json.Value :=
  if String.eqb s "two" then Some record_two_affs
  else if String.eqb s "none" then Some (Json.Object [("id", Json.String "10.1/b")])
  else None.

(** Blank lines: the empty line and a single space. *)
Definition sample_trim_is_empty (s : string) : bool :=
  String.eqb s "" || String.eqb s " ".

End Scenarios.

(* ================================================================== *)
(* Proofs                                                             *)
(* ================================================================== *)

(* ------------------------------------------------------------------ *)
(* The fingerprint format                                             *)
(* ------------------------------------------------------------------ *)

Lemma string_length_append (s1 s2 : string) :
  String.length (s1 ++ s2) = (String.length s1 + String.length s2)%nat.
Proof. induction s1 as [|c s1 IH]; simpl; [reflexivity | now rewrite IH]. Qed.

Lemma is_lower_hex_append (s1 s2 : string) :
  is_lower_hex (s1 ++ s2) = is_lower_hex s1 && is_lower_hex s2.
Proof.
  induction s1 as [|c s1 IH]; simpl; [reflexivity|].
  now rewrite IH, andb_assoc.
Qed.

Lemma hex_digit_ok (d : N) : d < 16 -> is_lower_hex_char (hex_digit d) = true.
Proof.
  intros Hd.
  assert (d = 0 \/ d = 1 \/ d = 2 \/ d = 3 \/ d = 4 \/ d = 5 \/ d = 6 \/
          d = 7 \/ d = 8 \/ d = 9 \/ d = 10 \/ d = 11 \/ d = 12 \/ d = 13 \/
          d = 14 \/ d = 15) as Hcases by lia.
  repeat destruct Hcases as [-> | Hcases]; try reflexivity; subst; reflexivity.
Qed.

Lemma hex_go_hex (f : nat) : forall (n : N) (acc : string),
  is_lower_hex acc = true -> is_lower_hex (hex_go f n acc) = true.
Proof.
  induction f as [|f IH]; intros n acc Hacc; simpl; [exact Hacc|].
  assert (Hc : is_lower_hex (String (hex_digit (n mod 16)) acc) = true).
  { simpl. rewrite hex_digit_ok, Hacc; [reflexivity|].
    apply N.mod_lt; discriminate. }
  destruct (n <? 16); [exact Hc | now apply IH].
Qed.

Lemma hex_go_length (f : nat) : forall (k : nat) (n : N) (acc : string),
  n < 16 ^ N.of_nat (S k) ->
  (String.length (hex_go f n acc) <= S k + String.length acc)%nat.
Proof.
  induction f as [|f IH]; intros k n acc Hn; simpl; [lia|].
  destruct (N.ltb_spec n 16) as [Hlt | Hge]; [simpl; lia|].
  destruct k as [|k].
  - simpl in Hn. lia.
  - specialize (IH k (n / 16) (String (hex_digit (n mod 16)) acc)).
    simpl in IH. enough (n / 16 < 16 ^ N.of_nat (S k)) by (specialize (IH H); lia).
    apply N.Div0.div_lt_upper_bound.
    rewrite <- N.pow_succ_r'. now rewrite <- Nat2N.inj_succ.
Qed.

Lemma repeat_zero_hex (m : nat) :
  is_lower_hex (string_of_list_ascii (repeat "0"%char m)) = true.
Proof. induction m as [|m IH]; simpl; [reflexivity | exact IH]. Qed.

Lemma string_of_list_ascii_length (l : list ascii) :
  String.length (string_of_list_ascii l) = List.length l.
Proof. induction l as [|c l IH]; simpl; [reflexivity | now rewrite IH]. Qed.

(** Every [u64] formats as exactly 16 lower-case hex digits. *)
Lemma format_016x_fingerprint (n : N) :
  n < 2 ^ 64 ->
  String.length (format_016x n) = 16%nat /\ is_lower_hex (format_016x n) = true.
Proof.
  intros Hn. unfold format_016x, pad_zero, to_lower_hex.
  assert (Hl : (String.length (hex_go 64 n EmptyString) <= 16)%nat).
  { pose proof (hex_go_length 64 15 n EmptyString) as H.
    change (String.length EmptyString) with 0%nat in H.
    change (16 ^ N.of_nat 16) with (2 ^ 64) in H.
    specialize (H Hn). lia. }
  split.
  - rewrite string_length_append, string_of_list_ascii_length, repeat_length.
    lia.
  - rewrite is_lower_hex_append, repeat_zero_hex, hex_go_hex; reflexivity.
Qed.

(* ------------------------------------------------------------------ *)
(* Checkpoint files                                                   *)
(* ------------------------------------------------------------------ *)

Module CheckpointFacts.
Import Checkpoint.

(** A string [writeln!] and [lines] give back unchanged: no ["\n"] in it
    and no ["\r"] at its end. *)
Definition line_ok (h : string) : Prop :=
  Forall (fun c => c <> newline) (list_ascii_of_string h) /\
  hd_error (rev (list_ascii_of_string h)) <> Some carriage_return.

Lemma lines_go_line (h rest : string) (cur : list ascii) :
  Forall (fun c => c <> newline) (list_ascii_of_string h) ->
  lines_go (h ++ String newline rest) cur =
  finish_line (rev (list_ascii_of_string h) ++ cur) :: lines_go rest [].
Proof.
  revert cur. induction h as [|c h IH]; intros cur Hnl; simpl.
  - reflexivity.
  - inversion Hnl as [|? ? Hc Hrest]; subst.
    destruct (Ascii.eqb_spec c newline) as [E|_]; [contradiction|].
    rewrite IH by exact Hrest. now rewrite <- app_assoc.
Qed.

Lemma finish_line_ok (h : string) :
  line_ok h -> finish_line (rev (list_ascii_of_string h) ++ []) = h.
Proof.
  intros [_ Hcr]. rewrite app_nil_r. unfold finish_line.
  destruct (rev (list_ascii_of_string h)) as [|c rest] eqn:E.
  - apply (f_equal (@rev ascii)) in E. rewrite rev_involutive in E.
    simpl in E. rewrite <- (string_of_list_ascii_of_string h), E. reflexivity.
  - destruct (Ascii.eqb_spec c carriage_return) as [->|_]; [simpl in Hcr; congruence|].
    rewrite <- E, rev_involutive. apply string_of_list_ascii_of_string.
Qed.

Lemma lines_serialize (hs : list string) :
  Forall line_ok hs -> lines (serialize hs) = hs.
Proof.
  induction hs as [|h hs IH]; intros Hok; [reflexivity|].
  inversion Hok as [|? ? Hh Hhs]; subst.
  unfold lines; simpl. rewrite lines_go_line by apply Hh.
  rewrite finish_line_ok by exact Hh. f_equal. now apply IH.
Qed.

Lemma elem_of_insert_lines_acc (ls : list string) : forall (acc : gset string) h,
  h ∈ foldl (fun acc hash => if String.eqb hash EmptyString then acc
                             else {[hash]} ∪ acc) acc ls <->
  h ∈ acc \/ (In h ls /\ h <> EmptyString).
Proof.
  induction ls as [|l ls IH]; intros acc h; simpl.
  - split; [tauto | intros [H | [[] _]]; exact H].
  - rewrite IH. destruct (String.eqb_spec l EmptyString) as [->|Hne].
    + split; [intros [H | [Hin Hh]]; auto|].
      intros [H | [[<- | Hin] Hh]]; auto; contradiction.
    + rewrite elem_of_union, elem_of_singleton.
      split; [intros [[-> | H] | [Hin Hh]]; auto|].
      intros [H | [[<- | Hin] Hh]]; auto.
Qed.

Lemma elem_of_insert_lines (ls : list string) (h : string) :
  h ∈ insert_lines ls <-> In h ls /\ h <> EmptyString.
Proof.
  unfold insert_lines. rewrite elem_of_insert_lines_acc. set_solver.
Qed.

(** Saving then loading a checkpoint of well-formed, non-empty entries
    gives back the same set. *)
Lemma load_save_processed (cp : Checkpoint) (fs : FS) :
  set_Forall (fun h => line_ok h /\ h <> EmptyString) (processed cp) ->
  processed (load (save cp fs) (path cp)) = processed cp.
Proof.
  intros Hok. unfold load, save. rewrite lookup_insert_eq. simpl.
  rewrite lines_serialize.
  - apply set_eq. intros h. rewrite elem_of_insert_lines.
    rewrite <- list_elem_of_In, elem_of_elements.
    split; [tauto|]. intros Hh. split; [exact Hh|]. apply (Hok h Hh).
  - apply Forall_forall. intros h Hin.
    apply elem_of_elements in Hin. apply (Hok h Hin).
Qed.

Lemma hex_char_not_nl_cr (c : ascii) :
  is_lower_hex_char c = true -> c <> newline /\ c <> carriage_return.
Proof. intros H; split; intros ->; discriminate H. Qed.

Lemma fingerprint_line_ok (h : string) :
  is_fingerprint h = true -> line_ok h /\ h <> EmptyString.
Proof.
  unfold is_fingerprint. intros [Hlen Hhex]%andb_prop.
  apply Nat.eqb_eq in Hlen.
  assert (Hall : Forall (fun c => is_lower_hex_char c = true) (list_ascii_of_string h)).
  { clear Hlen. induction h as [|c h IH]; simpl in *; [constructor|].
    apply andb_prop in Hhex as [Hc Hh]. constructor; auto. }
  split; [split|].
  - eapply Forall_impl; [exact Hall|]. intros c Hc. apply hex_char_not_nl_cr, Hc.
  - destruct (rev (list_ascii_of_string h)) as [|c rest] eqn:E; simpl; [discriminate|].
    intros [= ->].
    assert (Hin : In carriage_return (list_ascii_of_string h)).
    { apply in_rev. rewrite E. left. reflexivity. }
    rewrite Forall_forall in Hall. apply list_elem_of_In, Hall in Hin. discriminate Hin.
  - intros ->. discriminate Hlen.
Qed.

Lemma processed_foldl_mark (marked : list string) : forall (cp : Checkpoint) h,
  h ∈ processed (foldl mark_processed cp marked) <-> h ∈ processed cp \/ In h marked.
Proof.
  induction marked as [|m marked IH]; intros cp h; simpl.
  - tauto.
  - rewrite IH. simpl. rewrite elem_of_union, elem_of_singleton. intuition congruence.
Qed.

Lemma path_foldl_mark (marked : list string) : forall (cp : Checkpoint),
  path (foldl mark_processed cp marked) = path cp.
Proof. induction marked as [|m marked IH]; intros cp; simpl; [reflexivity|]. now rewrite IH. Qed.

End CheckpointFacts.

(* ------------------------------------------------------------------ *)
(* C8, C9, C10                                                        *)
(* ------------------------------------------------------------------ *)

(** C9: [hash_affiliation] is a function of its input (deterministic) and
    every result, also for the empty string, is a string of exactly 16
    lower-case hexadecimal digits, for any [u64]-valued [xxh3_64]. *)
Theorem hash_affiliation_deterministic_fixed_width
    (xxh3_64 : list Byte.byte -> N) (Hu64 : forall bs, xxh3_64 bs < 2 ^ 64)
    (s : string) :
  Query.hash_affiliation xxh3_64 s = Query.hash_affiliation xxh3_64 s /\
  String.length (Query.hash_affiliation xxh3_64 s) = 16%nat /\
  is_lower_hex (Query.hash_affiliation xxh3_64 s) = true.
Proof.
  split; [reflexivity|]. apply format_016x_fingerprint, Hu64.
Qed.

Lemma hash_affiliation_deterministic_fixed_width_witness :
  (forall bs, Scenarios.sample_xxh3 bs < 2 ^ 64) /\
  (Query.hash_affiliation Scenarios.sample_xxh3 EmptyString =
   Query.hash_affiliation Scenarios.sample_xxh3 EmptyString /\
   String.length (Query.hash_affiliation Scenarios.sample_xxh3 EmptyString) = 16%nat /\
   is_lower_hex (Query.hash_affiliation Scenarios.sample_xxh3 EmptyString) = true).
Proof.
  split.
  - intros bs. apply N.mod_lt. discriminate.
  - apply hash_affiliation_deterministic_fixed_width.
    intros bs. apply N.mod_lt. discriminate.
Defined.

(** C10: the crate-level [hash_affiliation] of lib.rs and the private one
    of the query module compute the same string for every input. *)
Theorem hash_affiliation_lib_query_agree
    (xxh3_64 : list Byte.byte -> N) (s : string) :
  Lib.hash_affiliation xxh3_64 s = Query.hash_affiliation xxh3_64 s.
Proof. reflexivity. Qed.

(** C8: marking fingerprints on a new checkpoint, saving it and loading the
    same path gives a checkpoint whose [is_processed] holds exactly for the
    marked fingerprints; loading a path with no file gives an empty
    checkpoint; and a loaded checkpoint never holds the empty line. *)
Theorem checkpoint_save_load_roundtrip
    (p : string) (marked : list string) (fs : Checkpoint.FS) :
  Forall (fun h => Checkpoint.is_fingerprint h = true) marked ->
  (forall h,
     Checkpoint.is_processed
       (Checkpoint.load
          (Checkpoint.save (foldl Checkpoint.mark_processed (Checkpoint.new p) marked) fs)
          p) h = true <-> In h marked) /\
  (forall (fs' : Checkpoint.FS) p', fs' !! p' = None ->
     Checkpoint.load fs' p' = Checkpoint.new p') /\
  (forall (fs' : Checkpoint.FS) p',
     EmptyString ∉ Checkpoint.processed (Checkpoint.load fs' p')).
Proof.
  intros Hfp. split; [|split].
  - intros h. set (cp := foldl Checkpoint.mark_processed (Checkpoint.new p) marked).
    assert (Hp : Checkpoint.path cp = p) by apply CheckpointFacts.path_foldl_mark.
    assert (Hl : Checkpoint.load (Checkpoint.save cp fs) p =
                 Checkpoint.load (Checkpoint.save cp fs) (Checkpoint.path cp))
      by now rewrite Hp.
    unfold Checkpoint.is_processed. rewrite Hl.
    rewrite CheckpointFacts.load_save_processed.
    + rewrite bool_decide_eq_true. unfold cp.
      rewrite CheckpointFacts.processed_foldl_mark. simpl. set_solver.
    + intros x Hx. unfold cp in Hx.
      apply CheckpointFacts.processed_foldl_mark in Hx as [Hx | Hx]; [set_solver|].
      apply CheckpointFacts.fingerprint_line_ok.
      rewrite Forall_forall in Hfp. apply Hfp. apply list_elem_of_In. exact Hx.
  - intros fs' p' Hnone. unfold Checkpoint.load. now rewrite Hnone.
  - intros fs' p'. unfold Checkpoint.load.
    destruct (fs' !! p'); simpl; [|set_solver].
    rewrite CheckpointFacts.elem_of_insert_lines. tauto.
Qed.

Lemma checkpoint_save_load_roundtrip_witness :
  Forall (fun h => Checkpoint.is_fingerprint h = true)
    ["00000000000000ab"; "0123456789abcdef"]%string /\
  ((forall h,
     Checkpoint.is_processed
       (Checkpoint.load
          (Checkpoint.save
             (foldl Checkpoint.mark_processed (Checkpoint.new "out/ror_matches.checkpoint")
                ["00000000000000ab"; "0123456789abcdef"]%string) ∅)
          "out/ror_matches.checkpoint") h = true <->
     In h ["00000000000000ab"; "0123456789abcdef"]%string) /\
  (forall (fs' : Checkpoint.FS) p', fs' !! p' = None ->
     Checkpoint.load fs' p' = Checkpoint.new p') /\
  (forall (fs' : Checkpoint.FS) p',
     EmptyString ∉ Checkpoint.processed (Checkpoint.load fs' p'))).
Proof.
  split.
  - repeat constructor.
  - apply checkpoint_save_load_roundtrip. repeat constructor.
Defined.

(* ------------------------------------------------------------------ *)
(* The registry client                                                *)
(* ------------------------------------------------------------------ *)

Module ClientFacts.
Import Client.

(** [extract_chosen_ror_id] returns an id only from the first item flagged
    chosen. *)
Lemma extract_chosen_sound (resp : RorResponse) (rid : string) :
  extract_chosen_ror_id resp = Some rid ->
  exists it, In it (items resp) /\ chosen it = Some true /\
             organization it = Some {| id := rid |} /\
             List.find is_chosen (items resp) = Some it.
Proof.
  unfold extract_chosen_ror_id. destruct (List.find is_chosen (items resp)) as [it|] eqn:E;
    [|discriminate].
  intros Hid. exists it.
  pose proof (find_some _ _ E) as [Hin Hc].
  split; [exact Hin|]. split.
  - unfold is_chosen in Hc. destruct (chosen it) as [[]|]; congruence.
  - split; [|reflexivity].
    destruct (organization it) as [[o]|]; simpl in Hid; congruence.
Qed.

Lemma extract_none_unflagged (resp : RorResponse) :
  (forall it, In it (items resp) -> chosen it <> Some true) ->
  extract_chosen_ror_id resp = None.
Proof.
  intros Hno. unfold extract_chosen_ror_id.
  destruct (List.find is_chosen (items resp)) as [it|] eqn:E; [|reflexivity].
  exfalso. apply find_some in E as [Hin Hc]. apply (Hno it Hin).
  unfold is_chosen in Hc. destruct (chosen it) as [[]|]; congruence.
Qed.

(** A matched id always comes from a successful reply of the registry. *)
Definition from_chosen (srv : Server) (rid : string) : Prop :=
  exists tr u st ra resp, srv tr u = Response st ra (inr resp) /\
    is_success st = true /\ extract_chosen_ror_id resp = Some rid.

Lemma make_request_loop_match (srv : Server) (url : string) (fuel : nat) :
  forall attempt tr rid,
  fst (make_request_loop srv url attempt fuel tr) = Ok (Some rid) ->
  from_chosen srv rid.
Proof.
  induction fuel as [|fuel IH]; intros attempt tr rid H; simpl in H; [discriminate|].
  destruct (srv tr url) as [e|st ra body] eqn:E.
  - destruct (attempt <? 2)%nat; [eapply IH; exact H | discriminate].
  - destruct (is_success st) eqn:Hs.
    + destruct body as [e|resp]; simpl in H; [discriminate|].
      injection H as H. exists tr, url, st, ra, resp. auto.
    + destruct (500 <=? st); [discriminate|].
      destruct (st =? 429); [eapply IH; exact H | discriminate].
Qed.

Lemma make_request_match (srv : Server) (url : string) (tr : trace) (rid : string) :
  fst (make_request srv url tr) = Ok (Some rid) -> from_chosen srv rid.
Proof. apply make_request_loop_match. Qed.

Lemma phase3_match srv base_url aff fb tr rid :
  fst (phase3 srv base_url aff fb tr) = Ok (Some rid) -> from_chosen srv rid.
Proof.
  unfold phase3. destruct fb; simpl; [|discriminate].
  destruct (make_request srv (quoted_multi_url base_url aff) tr) as [r tr1] eqn:E.
  destruct r as [x|e]; simpl.
  - intros [= ->]. apply (make_request_match srv (quoted_multi_url base_url aff) tr). now rewrite E.
  - apply make_request_match.
Qed.

Lemma query_affiliation_match srv base_url aff fb tr rid :
  fst (query_affiliation srv base_url aff fb tr) = Ok (Some rid) -> from_chosen srv rid.
Proof.
  unfold query_affiliation.
  destruct (make_request srv (quoted_single_url base_url aff) tr) as [r1 tr1] eqn:E1.
  destruct r1 as [[x|]|e].
  - simpl. intros [= ->]. apply (make_request_match srv (quoted_single_url base_url aff) tr). now rewrite E1.
  - apply phase3_match.
  - destruct (contains e "500").
    + destruct (make_request srv (unquoted_single_url base_url aff) tr1) as [r2 tr2] eqn:E2.
      destruct r2 as [[x|]|e2].
      * simpl. intros [= ->]. apply (make_request_match srv (unquoted_single_url base_url aff) tr1). now rewrite E2.
      * apply phase3_match.
      * destruct (negb fb); [discriminate | apply phase3_match].
    + destruct (negb fb); [discriminate | apply phase3_match].
Qed.

(** A successful reply whose items carry no chosen flag is "no match". *)
Lemma make_request_success_unflagged srv url tr st ra resp :
  srv tr url = Response st ra (inr resp) -> is_success st = true ->
  (forall it, In it (items resp) -> chosen it <> Some true) ->
  make_request srv url tr = (Ok None, tr ++ [Request url]).
Proof.
  intros E Hs Hno. unfold make_request; simpl. rewrite E, Hs.
  now rewrite extract_none_unflagged.
Qed.

End ClientFacts.

(** C5: only a candidate flagged chosen is ever accepted.  For every
    response, [extract_chosen_ror_id] yields an id only as the organization
    of the first item flagged [chosen: true], and yields nothing when no
    item is flagged; a successful reply without a flagged item makes the
    request's result "no match"; and every id [query_affiliation] returns
    as a match is the chosen id of some successful reply. *)
Theorem resolve_accepts_only_chosen :
  (forall (resp : Client.RorResponse) rid,
     Client.extract_chosen_ror_id resp = Some rid ->
     exists it, In it (Client.items resp) /\ Client.chosen it = Some true /\
                Client.organization it = Some {| Client.id := rid |} /\
                List.find Client.is_chosen (Client.items resp) = Some it) /\
  (forall (resp : Client.RorResponse),
     (forall it, In it (Client.items resp) -> Client.chosen it <> Some true) ->
     Client.extract_chosen_ror_id resp = None) /\
  (forall srv url tr st ra resp,
     srv tr url = Client.Response st ra (inr resp) -> Client.is_success st = true ->
     (forall it, In it (Client.items resp) -> Client.chosen it <> Some true) ->
     Client.make_request srv url tr = (Client.Ok None, tr ++ [Client.Request url])) /\
  (forall srv base_url aff fb tr rid,
     fst (Client.query_affiliation srv base_url aff fb tr) = Client.Ok (Some rid) ->
     ClientFacts.from_chosen srv rid).
Proof.
  split; [exact ClientFacts.extract_chosen_sound|].
  split; [exact ClientFacts.extract_none_unflagged|].
  split; [exact ClientFacts.make_request_success_unflagged|].
  exact ClientFacts.query_affiliation_match.
Qed.

Module ClientFacts2.
Import Client.



Lemma make_request_loop_429 srv url attempt fuel tr ra body :
  srv tr url = Response 429 ra body ->
  make_request_loop srv url attempt (S fuel) tr =
  make_request_loop srv url (S attempt) fuel
    (tr ++ [Request url] ++
     [Sleep (match option_bind _ _ parse_u64 (option_bind _ _ header_to_str ra) with
             | Some w => w
             | None => 2 ^ N.of_nat attempt
             end)]).
Proof. intros E. simpl. rewrite E. simpl. now rewrite <- app_assoc. Qed.

Lemma make_request_loop_all_429 srv url (fuel : nat) :
  (forall tr', exists ra body, srv tr' url = Response 429 ra body) ->
  forall attempt tr, fst (make_request_loop srv url attempt fuel tr) = Err "Max retries exceeded".
Proof.
  intros H429. induction fuel as [|fuel IH]; intros attempt tr; [reflexivity|].
  destruct (H429 tr) as (ra & body & E).
  rewrite (make_request_loop_429 srv url attempt fuel tr ra body E). apply IH.
Qed.

End ClientFacts2.



(** C4 counterexample: with broad fallback on and no match in phase 1,
    the broad search returns a candidate carrying an organization but not
    flagged chosen, and [query_affiliation] reports no match. *)
Lemma broad_unflagged_not_matched :
  (exists it, In it (Client.items Scenarios.unflagged_response) /\
              Client.organization it <> None) /\
  Client.query_affiliation Scenarios.srv_broad_unflagged Scenarios.base
    Scenarios.test_aff true [] =
  (Client.Ok None,
   [Client.Request (Client.quoted_single_url Scenarios.base Scenarios.test_aff);
    Client.Request (Client.quoted_multi_url Scenarios.base Scenarios.test_aff)]).
Proof.
  split.
  - eexists. split; [left; reflexivity | discriminate].
  - vm_compute. reflexivity.
Qed.

(** C4 amended: phase 3 applies the same chosen-only rule as the other
    phases.  A successful quoted broad reply gives exactly
    [extract_chosen_ror_id] of its items (the first item flagged chosen,
    never an unflagged one); a failed quoted broad request hands over to
    the unquoted broad request, whose result is returned; and phase 3 is
    reached, with fallback on, after a phase 1 without match or a phase 2
    without match. *)
Theorem phase3_broad_takes_chosen_only :
  (forall srv base_url aff tr st ra resp,
     srv tr (Client.quoted_multi_url base_url aff) = Client.Response st ra (inr resp) ->
     Client.is_success st = true ->
     Client.phase3 srv base_url aff true tr =
       (Client.Ok (Client.extract_chosen_ror_id resp),
        tr ++ [Client.Request (Client.quoted_multi_url base_url aff)])) /\
  (forall srv base_url aff tr e tr1,
     Client.make_request srv (Client.quoted_multi_url base_url aff) tr = (Client.Err e, tr1) ->
     Client.phase3 srv base_url aff true tr =
       Client.make_request srv (Client.unquoted_multi_url base_url aff) tr1) /\
  (forall srv base_url aff tr tr1,
     Client.make_request srv (Client.quoted_single_url base_url aff) tr = (Client.Ok None, tr1) ->
     Client.query_affiliation srv base_url aff true tr = Client.phase3 srv base_url aff true tr1) /\
  (forall srv base_url aff tr e tr1 tr2,
     Client.make_request srv (Client.quoted_single_url base_url aff) tr = (Client.Err e, tr1) ->
     contains e "500" = true ->
     Client.make_request srv (Client.unquoted_single_url base_url aff) tr1 = (Client.Ok None, tr2) ->
     Client.query_affiliation srv base_url aff true tr = Client.phase3 srv base_url aff true tr2) /\
  (forall (resp : Client.RorResponse) rid,
     Client.extract_chosen_ror_id resp = Some rid ->
     exists it, In it (Client.items resp) /\ Client.chosen it = Some true /\
                Client.organization it = Some {| Client.id := rid |}).
Proof.
  split; [|split; [|split; [|split]]].
  - intros srv base_url aff tr st ra resp E Hs.
    unfold Client.phase3, Client.make_request; simpl. now rewrite E, Hs.
  - intros srv base_url aff tr e tr1 E. unfold Client.phase3. now rewrite E.
  - intros srv base_url aff tr tr1 E. unfold Client.query_affiliation. now rewrite E.
  - intros srv base_url aff tr e tr1 tr2 E1 H500 E2.
    unfold Client.query_affiliation. now rewrite E1, H500, E2.
  - intros resp rid H. destruct (ClientFacts.extract_chosen_sound resp rid H)
      as (it & Hin & Hc & Ho & _). eauto.
Qed.

(** C6 counterexample: a registry that answers 429 to every request makes
    [query_affiliation] (fallback off) fail with "Max retries exceeded"
    after three attempts, sleeping 1, 2 and 4 seconds. *)
Lemma rate_limit_exhausts_budget :
  Client.query_affiliation Scenarios.srv_always_429 Scenarios.base
    Scenarios.test_aff false [] =
  (Client.Err "Max retries exceeded",
   [Client.Request (Client.quoted_single_url Scenarios.base Scenarios.test_aff);
    Client.Sleep 1;
    Client.Request (Client.quoted_single_url Scenarios.base Scenarios.test_aff);
    Client.Sleep 2;
    Client.Request (Client.quoted_single_url Scenarios.base Scenarios.test_aff);
    Client.Sleep 4]).
Proof. vm_compute. reflexivity. Qed.

(** C6 amended: a 429 is not returned as such: the client sleeps for the
    Retry-After value when it is a visible-ASCII [u64], else [2^attempt]
    seconds, and sends the same request again; but each 429 uses one of
    [make_request]'s three attempts, so a request answered 429 every time
    fails with "Max retries exceeded", which [query_affiliation] with
    fallback off returns as its failure.  A registry answering 429 once and
    then a chosen candidate gives the match. *)
Theorem rate_limit_retries_within_budget :
  (forall srv url attempt fuel tr ra body,
     srv tr url = Client.Response 429 ra body ->
     Client.make_request_loop srv url attempt (S fuel) tr =
     Client.make_request_loop srv url (S attempt) fuel
       (tr ++ [Client.Request url] ++
        [Client.Sleep (match option_bind _ _ Client.parse_u64
                               (option_bind _ _ Client.header_to_str ra) with
                       | Some w => w
                       | None => 2 ^ N.of_nat attempt
                       end)])) /\
  (forall srv url tr,
     (forall tr', exists ra body, srv tr' url = Client.Response 429 ra body) ->
     fst (Client.make_request srv url tr) = Client.Err "Max retries exceeded") /\
  (forall srv base_url aff tr,
     (forall tr', exists ra body,
        srv tr' (Client.quoted_single_url base_url aff) = Client.Response 429 ra body) ->
     fst (Client.query_affiliation srv base_url aff false tr) = Client.Err "Max retries exceeded") /\
  Client.query_affiliation Scenarios.srv_429_once Scenarios.base Scenarios.test_aff false [] =
  (Client.Ok (Some "https://ror.org/abc123"),
   [Client.Request (Client.quoted_single_url Scenarios.base Scenarios.test_aff);
    Client.Sleep 1;
    Client.Request (Client.quoted_single_url Scenarios.base Scenarios.test_aff)]).
Proof.
  split; [|split; [|split]].
  - exact ClientFacts2.make_request_loop_429.
  - intros srv url tr H. apply ClientFacts2.make_request_loop_all_429, H.
  - intros srv base_url aff tr H. unfold Client.query_affiliation.
    destruct (Client.make_request srv (Client.quoted_single_url base_url aff) tr)
      as [r1 tr1] eqn:E.
    pose proof (ClientFacts2.make_request_loop_all_429 srv _ 3 H 0 tr) as Hmax.
    unfold Client.make_request, Client.max_retries in E. rewrite E in Hmax. simpl in Hmax. subst r1.
    reflexivity.
  - vm_compute. reflexivity.
Qed.

(* ------------------------------------------------------------------ *)
(* The orchestrator                                                   *)
(* ------------------------------------------------------------------ *)

Module QueryFacts.
Import Client Query.

Lemma requests_app (t1 t2 : trace) : requests (t1 ++ t2) = requests t1 ++ requests t2.
Proof.
  induction t1 as [|[u|s] t1 IH]; simpl; [reflexivity | now rewrite IH | exact IH].
Qed.

(** The requests [make_request] adds are all to its URL. *)
Lemma make_request_loop_requests srv url (fuel : nat) : forall attempt tr,
  exists new, requests (snd (make_request_loop srv url attempt fuel tr)) =
              requests tr ++ new /\ Forall (fun u => u = url) new.
Proof.
  induction fuel as [|fuel IH]; intros attempt tr; simpl.
  - exists []. split; [now rewrite app_nil_r | constructor].
  - assert (H1 : requests (tr ++ [Request url]) = requests tr ++ [url])
      by (rewrite requests_app; reflexivity).
    assert (Hstep : forall t', requests t' = requests (tr ++ [Request url]) ->
              exists new, requests (snd (make_request_loop srv url (S attempt) fuel t')) =
                          requests tr ++ new /\ Forall (fun u => u = url) new).
    { intros t' Ht'. destruct (IH (S attempt) t') as (new & Hn & Hf).
      exists (url :: new). rewrite Hn, Ht', H1, <- app_assoc. split; [reflexivity|].
      constructor; auto. }
    assert (Hone : exists new, requests (tr ++ [Request url]) = requests tr ++ new /\
                               Forall (fun u => u = url) new)
      by (exists [url]; split; [exact H1 | repeat constructor]).
    destruct (srv tr url) as [e|st ra body].
    + destruct (attempt <? 2)%nat; simpl; [|exact Hone].
      apply Hstep. rewrite requests_app. simpl. now rewrite app_nil_r.
    + destruct (is_success st); [destruct body; exact Hone|].
      destruct (500 <=? st); [exact Hone|].
      destruct (st =? 429); [|exact Hone].
      apply Hstep. rewrite requests_app. simpl. now rewrite app_nil_r.
Qed.

Lemma make_request_requests_in srv base_url aff url tr :
  In url (query_urls base_url aff) ->
  exists new, requests (snd (make_request srv url tr)) = requests tr ++ new /\
              Forall (fun u => In u (query_urls base_url aff)) new.
Proof.
  intros Hin. destruct (make_request_loop_requests srv url max_retries 0 tr) as (new & Hn & Hf).
  exists new. split; [exact Hn|]. eapply Forall_impl; [exact Hf|]. intros u ->. exact Hin.
Qed.

(** [query_affiliation] only requests the four URLs built from its
    affiliation. *)
Lemma query_affiliation_requests srv base_url aff fb tr :
  exists new, requests (snd (query_affiliation srv base_url aff fb tr)) = requests tr ++ new /\
              Forall (fun u => In u (query_urls base_url aff)) new.
Proof.
  assert (Hph3 : forall t, exists new,
            requests (snd (phase3 srv base_url aff fb t)) = requests t ++ new /\
            Forall (fun u => In u (query_urls base_url aff)) new).
  { intros t. unfold phase3. destruct fb; [|exists []; simpl; split; [now rewrite app_nil_r | constructor]].
    destruct (make_request srv (quoted_multi_url base_url aff) t) as [r t1] eqn:E.
    destruct (make_request_requests_in srv base_url aff (quoted_multi_url base_url aff) t
                ltac:(simpl; tauto)) as (n1 & H1 & F1).
    rewrite E in H1. simpl in H1.
    destruct r as [x|e]; simpl; [exists n1; auto|].
    destruct (make_request_requests_in srv base_url aff (unquoted_multi_url base_url aff) t1
                ltac:(simpl; tauto)) as (n2 & H2 & F2).
    exists (n1 ++ n2). rewrite H2, H1, <- app_assoc. split; [reflexivity|].
    apply Forall_app; auto. }
  assert (Hcat : forall t t' n1, requests t' = requests tr ++ n1 ->
            Forall (fun u => In u (query_urls base_url aff)) n1 ->
            (exists n2, requests t = requests t' ++ n2 /\
                        Forall (fun u => In u (query_urls base_url aff)) n2) ->
            exists new, requests t = requests tr ++ new /\
                        Forall (fun u => In u (query_urls base_url aff)) new).
  { intros t t' n1 H1 F1 (n2 & H2 & F2). exists (n1 ++ n2).
    rewrite H2, H1, <- app_assoc. split; [reflexivity | apply Forall_app; auto]. }
  unfold query_affiliation.
  destruct (make_request srv (quoted_single_url base_url aff) tr) as [r1 tr1] eqn:E1.
  destruct (make_request_requests_in srv base_url aff (quoted_single_url base_url aff) tr
              ltac:(simpl; tauto)) as (n1 & H1 & F1).
  rewrite E1 in H1. simpl in H1.
  destruct r1 as [[x|]|e].
  - exists n1. auto.
  - eapply Hcat; [exact H1 | exact F1 | apply Hph3].
  - destruct (contains e "500").
    + destruct (make_request srv (unquoted_single_url base_url aff) tr1) as [r2 tr2] eqn:E2.
      destruct (make_request_requests_in srv base_url aff (unquoted_single_url base_url aff) tr1
                  ltac:(simpl; tauto)) as (n2 & H2 & F2).
      rewrite E2 in H2. simpl in H2.
      assert (H12 : requests tr2 = requests tr ++ (n1 ++ n2))
        by (rewrite H2, H1, <- app_assoc; reflexivity).
      assert (F12 : Forall (fun u => In u (query_urls base_url aff)) (n1 ++ n2))
        by (apply Forall_app; auto).
      destruct r2 as [[x|]|e2].
      * exists (n1 ++ n2). auto.
      * eapply Hcat; [exact H12 | exact F12 | apply Hph3].
      * destruct (negb fb); [exists (n1 ++ n2); auto|].
        eapply Hcat; [exact H12 | exact F12 | apply Hph3].
    + destruct (negb fb); [exists n1; auto|].
      eapply Hcat; [exact H1 | exact F1 | apply Hph3].
Qed.

End QueryFacts.

Module TaskFacts.
Import Client Query QueryFacts.

Section Tasks.
Variable env : Env.
Variable args : QueryArgs.

Lemma spawned_task_mark cp w aff h :
  fst (spawned_task env args (cp, w) (aff, h)) = Checkpoint.mark_processed cp h.
Proof.
  unfold spawned_task.
  destruct (query_affiliation (server env) (base_url args) aff (fallback_multi args) (net w)).
  reflexivity.
Qed.

Lemma foldl_tasks_mark (jobs : list (string * string)) : forall cp w,
  fst (foldl (spawned_task env args) (cp, w) jobs) =
  foldl Checkpoint.mark_processed cp (map snd jobs).
Proof.
  induction jobs as [|[aff h] jobs IH]; intros cp w; cbn [foldl map]; [reflexivity|].
  rewrite (surjective_pairing (spawned_task env args (cp, w) (aff, h))).
  rewrite IH, spawned_task_mark. reflexivity.
Qed.

Hypothesis io_ok : forall n, io_fails env n = false.

(** With no I/O failure a task adds exactly one record, for its own
    affiliation, and only requests URLs built from that affiliation. *)
Lemma spawned_task_effect cp w aff h m f :
  matches_file w = Some m -> failed_file w = Some f ->
  let w' := snd (spawned_task env args (cp, w) (aff, h)) in
  files w' = files w /\
  exists dm df, matches_file w' = Some (m ++ dm) /\ failed_file w' = Some (f ++ df) /\
    (length dm + length df = 1)%nat /\
    Forall (fun r => affiliation r = aff) dm /\
    Forall (fun r => failed_affiliation r = aff) df /\
    exists new, requests (net w') = requests (net w) ++ new /\
                Forall (fun u => In u (query_urls (base_url args) aff)) new.
Proof.
  intros Hm Hf. unfold spawned_task.
  destruct (query_affiliation_requests (server env) (base_url args) aff
              (fallback_multi args) (net w)) as (new & Hn & Fn).
  destruct (query_affiliation (server env) (base_url args) aff (fallback_multi args) (net w))
    as [r tr] eqn:E.
  simpl in Hn.
  destruct r as [[rid|]|e]; simpl;
    unfold write_match, write_failed, io; rewrite io_ok; simpl;
    rewrite ?Hm, ?Hf; simpl; (split; [reflexivity|]).
  - exists [{| affiliation := aff; affiliation_hash := h; ror_id := rid |}], [].
    rewrite app_nil_r. repeat split; auto; eauto.
  - exists [], [{| failed_affiliation := aff; failed_affiliation_hash := h;
                   error := "No match found" |}].
    rewrite app_nil_r. repeat split; auto; eauto.
  - exists [], [{| failed_affiliation := aff; failed_affiliation_hash := h; error := e |}].
    rewrite app_nil_r. repeat split; auto; eauto.
Qed.

Lemma foldl_tasks_effect (jobs : list (string * string)) : forall cp w m f,
  matches_file w = Some m -> failed_file w = Some f ->
  let w' := snd (foldl (spawned_task env args) (cp, w) jobs) in
  files w' = files w /\
  exists dm df, matches_file w' = Some (m ++ dm) /\ failed_file w' = Some (f ++ df) /\
    (length dm + length df = length jobs)%nat /\
    Forall (fun r => In (affiliation r) (map fst jobs)) dm /\
    Forall (fun r => In (failed_affiliation r) (map fst jobs)) df /\
    exists new, requests (net w') = requests (net w) ++ new /\
      Forall (fun u => exists a, In a (map fst jobs) /\
                                 In u (query_urls (base_url args) a)) new.
Proof.
  induction jobs as [|[aff h] jobs IH]; intros cp w m f Hm Hf; cbn [foldl map fst length].
  - split; [reflexivity|]. exists [], [].
    rewrite !app_nil_r. repeat split; auto.
    exists []. rewrite app_nil_r. auto.
  - rewrite (surjective_pairing (spawned_task env args (cp, w) (aff, h))).
    destruct (spawned_task_effect cp w aff h m f Hm Hf)
      as (Hfiles1 & dm1 & df1 & Hm1 & Hf1 & Hl1 & Fm1 & Ff1 & new1 & Hn1 & Fn1).
    destruct (IH (fst (spawned_task env args (cp, w) (aff, h)))
                 (snd (spawned_task env args (cp, w) (aff, h))) _ _ Hm1 Hf1)
      as (Hfiles2 & dm2 & df2 & Hm2 & Hf2 & Hl2 & Fm2 & Ff2 & new2 & Hn2 & Fn2).
    split; [congruence|].
    exists (dm1 ++ dm2), (df1 ++ df2).
    rewrite !app_assoc. split; [exact Hm2|]. split; [exact Hf2|].
    rewrite !length_app. split; [lia|].
    split; [apply Forall_app; split;
            [eapply Forall_impl; [exact Fm1|]; simpl; intros r ->; auto
            |eapply Forall_impl; [exact Fm2|]; simpl; auto]|].
    split; [apply Forall_app; split;
            [eapply Forall_impl; [exact Ff1|]; simpl; intros r ->; auto
            |eapply Forall_impl; [exact Ff2|]; simpl; auto]|].
    exists (new1 ++ new2). rewrite Hn2, Hn1, app_assoc. split; [reflexivity|].
    apply Forall_app. split.
    + eapply Forall_impl; [exact Fn1|]. intros u Hu. exists aff. simpl; auto.
    + eapply Forall_impl; [exact Fn2|]. intros u (a & Ha & Hu). exists a. simpl; auto.
Qed.
End Tasks.

End TaskFacts.
Module RunFacts.
Import Client Query QueryFacts TaskFacts.
Lemma run_async_no_io_failure (xxh3_64 : list Byte.byte -> N) (env : Env)
    (io_ok : forall n, io_fails env n = false)
    (args : QueryArgs) (affs : list string) (w0 : World) :
  let cpath := checkpoint_path args in
  let cp0 := if resume args && bool_decide (is_Some (files w0 !! cpath))
             then Checkpoint.load (files w0) cpath else Checkpoint.new cpath in
  let jobs := filter (fun job => negb (Checkpoint.is_processed cp0 (snd job)))
                (map (fun aff => (aff, hash_affiliation xxh3_64 aff)) affs) in
  jobs <> [] ->
  let run := run_async xxh3_64 env args affs w0 in
  fst run = Ok tt /\
  files (snd run) = Checkpoint.save (foldl Checkpoint.mark_processed cp0 (map snd jobs)) (files w0) /\
  exists dm df,
    matches_file (snd run) =
      Some (match matches_file w0 with Some l => if resume args then l else [] | None => [] end ++ dm) /\
    failed_file (snd run) =
      Some (match failed_file w0 with Some l => if resume args then l else [] | None => [] end ++ df) /\
    (length dm + length df = length jobs)%nat /\
    Forall (fun r => In (affiliation r) (map fst jobs)) dm /\
    Forall (fun r => In (failed_affiliation r) (map fst jobs)) df /\
    exists new, requests (net (snd run)) = requests (net w0) ++ new /\
      Forall (fun u => exists a, In a (map fst jobs) /\ In u (query_urls (base_url args) a)) new.
Proof.
  intros cpath cp0 jobs Hjobs run.
  unfold run, run_async, io. rewrite !io_ok. simpl.
  unfold jobs, cp0, cpath in *. clear jobs cp0 cpath run.
  set (m0 := match matches_file w0 with Some l => if resume args then l else [] | None => [] end).
  set (f0 := match failed_file w0 with Some l => if resume args then l else [] | None => [] end).
  destruct (resume args && bool_decide (is_Some (files w0 !! checkpoint_path args))) eqn:Er;
  [ remember (Checkpoint.load (files w0) (checkpoint_path args)) as cp0
  | remember (Checkpoint.new (checkpoint_path args)) as cp0 ];
  remember (filter (λ job : string * string, negb (Checkpoint.is_processed cp0 job.2))
              (map (λ aff : string, (aff, hash_affiliation xxh3_64 aff)) affs)) as jobs;
  (destruct (length jobs =? 0)%nat eqn:El;
   [apply Nat.eqb_eq, length_zero_iff_nil in El; contradiction|]);
  unfold open_sink, io; rewrite !io_ok; simpl; rewrite !io_ok; simpl.
  -
    match goal with
    | |- context [foldl (spawned_task env args) (_, ?w) _] => set (w4 := w)
    end.
    assert (Hm4 : matches_file w4 = Some m0)
      by (unfold w4, m0; simpl; destruct (matches_file w0), (resume args); reflexivity).
    assert (Hf4 : failed_file w4 = Some f0)
      by (unfold w4, f0; simpl; destruct (failed_file w0), (resume args); reflexivity).
    assert (Hfiles4 : files w4 = files w0) by reflexivity.
    assert (Hnet4 : net w4 = net w0) by reflexivity.
    pose proof (foldl_tasks_effect env args io_ok jobs cp0 w4 m0 f0 Hm4 Hf4) as Heff.
    pose proof (foldl_tasks_mark env args jobs cp0 w4) as Hmark.
    destruct (foldl (spawned_task env args) (cp0, w4) jobs) as [cp w5] eqn:Efold.
    simpl in Heff, Hmark; rewrite !io_ok; simpl.
    destruct Heff as (Hfiles & dm & df & Hm & Hf & Hl & Fm & Ff & new & Hn & Fn).
    split; [reflexivity|].
    split; [rewrite Hfiles, Hmark; try rewrite Hfiles4; reflexivity|].
    exists dm, df; repeat split; auto.
    exists new; rewrite Hn; try rewrite Hnet4; auto.
  -
    match goal with
    | |- context [foldl (spawned_task env args) (_, ?w) _] => set (w4 := w)
    end.
    assert (Hm4 : matches_file w4 = Some m0)
      by (unfold w4, m0; simpl; destruct (matches_file w0), (resume args); reflexivity).
    assert (Hf4 : failed_file w4 = Some f0)
      by (unfold w4, f0; simpl; destruct (failed_file w0), (resume args); reflexivity).
    assert (Hfiles4 : files w4 = files w0) by reflexivity.
    assert (Hnet4 : net w4 = net w0) by reflexivity.
    pose proof (foldl_tasks_effect env args io_ok jobs cp0 w4 m0 f0 Hm4 Hf4) as Heff.
    pose proof (foldl_tasks_mark env args jobs cp0 w4) as Hmark.
    destruct (foldl (spawned_task env args) (cp0, w4) jobs) as [cp w5] eqn:Efold.
    simpl in Heff, Hmark; rewrite !io_ok; simpl.
    destruct Heff as (Hfiles & dm & df & Hm & Hf & Hl & Fm & Ff & new & Hn & Fn).
    split; [reflexivity|].
    split; [rewrite Hfiles, Hmark; try rewrite Hfiles4; reflexivity|].
    exists dm, df; repeat split; auto.
    exists new; rewrite Hn; try rewrite Hnet4; auto.
Qed.
End RunFacts.

Module ResumeFacts.
Import Client Query.

Lemma hash_affiliation_fingerprint (xxh3_64 : list Byte.byte -> N)
    (Hu64 : forall bs, xxh3_64 bs < 2 ^ 64) (a : string) :
  Checkpoint.is_fingerprint (hash_affiliation xxh3_64 a) = true.
Proof.
  unfold Checkpoint.is_fingerprint.
  destruct (format_016x_fingerprint (xxh3_64 (as_bytes a)) (Hu64 _)) as [Hl Hh].
  unfold hash_affiliation. rewrite Hl, Hh. reflexivity.
Qed.

Lemma is_processed_new (p h : string) :
  Checkpoint.is_processed (Checkpoint.new p) h = false.
Proof. unfold Checkpoint.is_processed. apply bool_decide_eq_false. set_solver. Qed.

(** A checkpoint of fingerprints saved at its path loads back unchanged. *)
Lemma load_save_fingerprints (cp : Checkpoint.Checkpoint) (fs : Checkpoint.FS) :
  set_Forall (fun h => Checkpoint.is_fingerprint h = true) (Checkpoint.processed cp) ->
  Checkpoint.processed (Checkpoint.load (Checkpoint.save cp fs) (Checkpoint.path cp)) =
  Checkpoint.processed cp.
Proof.
  intros Hfp. apply CheckpointFacts.load_save_processed.
  intros h Hh. apply CheckpointFacts.fingerprint_line_ok, Hfp, Hh.
Qed.

Lemma save_has_path (cp : Checkpoint.Checkpoint) (fs : Checkpoint.FS) :
  is_Some (Checkpoint.save cp fs !! Checkpoint.path cp).
Proof. unfold Checkpoint.save. rewrite lookup_insert_eq. eauto. Qed.

Lemma filter_unprocessed_cons (cp : Checkpoint.Checkpoint) (job : string * string)
    (l : list (string * string)) :
  filter (fun job => negb (Checkpoint.is_processed cp (snd job))) (job :: l) =
  if Checkpoint.is_processed cp (snd job)
  then filter (fun job => negb (Checkpoint.is_processed cp (snd job))) l
  else job :: filter (fun job => negb (Checkpoint.is_processed cp (snd job))) l.
Proof.
  rewrite filter_cons.
  destruct (Checkpoint.is_processed cp (snd job)), (decide _) as [H|H];
    simpl in *; try reflexivity; exfalso; apply H; reflexivity || discriminate.
Qed.

Lemma elem_of_mark2 (p a b h : string) :
  h ∈ Checkpoint.processed
        (Checkpoint.mark_processed (Checkpoint.mark_processed (Checkpoint.new p) a) b) <->
  h = b \/ h = a.
Proof. simpl. set_solver. Qed.

End ResumeFacts.

(** C2: with no I/O failure, a first run on [A; B] (no resume) and a
    second run on [A; B; C] with [resume = true] over the files the first
    run left behind: both succeed; the second run only requests URLs built
    from [C] (none for [A] or [B]); and it appends exactly one outcome
    record, about [C], across the two sinks. *)
Theorem resume_skips_checkpointed_inputs
    (xxh3_64 : list Byte.byte -> N) (Hu64 : forall bs, xxh3_64 bs < 2 ^ 64)
    (srv : Client.Server) (out base : string) (fb : bool) (w0 : Query.World)
    (A B C : string)
    (HCA : Query.hash_affiliation xxh3_64 C <> Query.hash_affiliation xxh3_64 A)
    (HCB : Query.hash_affiliation xxh3_64 C <> Query.hash_affiliation xxh3_64 B) :
  let env := {| Query.server := srv; Query.io_fails := fun _ => false;
                Query.save_written := 0 |} in
  let args r := {| Query.output := out; Query.base_url := base;
                   Query.resume := r; Query.fallback_multi := fb |} in
  let run1 := Query.run_async xxh3_64 env (args false) [A; B] w0 in
  let run2 := Query.run_async xxh3_64 env (args true) [A; B; C] (snd run1) in
  fst run1 = Client.Ok tt /\ fst run2 = Client.Ok tt /\
  (exists new, Client.requests (Query.net (snd run2)) =
               Client.requests (Query.net (snd run1)) ++ new /\
     Forall (fun u => In u (Client.query_urls base C)) new) /\
  exists m1 f1 dm df,
    Query.matches_file (snd run1) = Some m1 /\ Query.failed_file (snd run1) = Some f1 /\
    Query.matches_file (snd run2) = Some (m1 ++ dm) /\
    Query.failed_file (snd run2) = Some (f1 ++ df) /\
    (length dm + length df = 1)%nat /\
    Forall (fun r => Query.affiliation r = C) dm /\
    Forall (fun r => Query.failed_affiliation r = C) df.
Proof.
  intros env args run1 run2.
  assert (Hio : forall n, Query.io_fails env n = false) by reflexivity.
  pose proof (RunFacts.run_async_no_io_failure xxh3_64 env Hio (args false) [A; B] w0) as R1.
  cbv zeta in R1. unfold args in R1. cbn [Query.resume andb map] in R1.
  rewrite !ResumeFacts.filter_unprocessed_cons, !ResumeFacts.is_processed_new,
    filter_nil in R1.
  specialize (R1 ltac:(discriminate)).
  cbn [map snd fst foldl] in R1.
  destruct R1 as (Ok1 & Files1 & dm1 & df1 & M1 & F1 & _).
  unfold run2, run1, args in *. cbv beta.
  clear run1 run2 args.
  set (run1 := Query.run_async xxh3_64 env _ [A; B] w0) in *.
  set (cpath := Query.checkpoint_path _) in *.
  assert (Hfp : forall a, Checkpoint.is_fingerprint (Query.hash_affiliation xxh3_64 a) = true)
    by apply (ResumeFacts.hash_affiliation_fingerprint xxh3_64 Hu64).
  pose proof (RunFacts.run_async_no_io_failure xxh3_64 env Hio
    {| Query.output := out; Query.base_url := base; Query.resume := true;
       Query.fallback_multi := fb |} [A; B; C] (snd run1)) as R2.
  cbv zeta in R2. cbn [Query.resume andb map] in R2.
  assert (Hcp : Query.checkpoint_path
                  {| Query.output := out; Query.base_url := base; Query.resume := true;
                     Query.fallback_multi := fb |} = cpath) by reflexivity.
  rewrite Hcp, Files1 in R2. clearbody cpath.
  pose proof (Hfp A) as HfA. pose proof (Hfp B) as HfB. clear Hfp.
  remember (Query.hash_affiliation xxh3_64 A) as hA eqn:EhA.
  remember (Query.hash_affiliation xxh3_64 B) as hB eqn:EhB.
  remember (Query.hash_affiliation xxh3_64 C) as hC eqn:EhC.
  set (cp1 := Checkpoint.mark_processed
                (Checkpoint.mark_processed (Checkpoint.new cpath) hA) hB) in *.
  set (fs1 := Query.files w0) in *.
  assert (Hsome : is_Some (Checkpoint.save cp1 fs1 !! cpath))
    by exact (ResumeFacts.save_has_path cp1 fs1).
  rewrite (bool_decide_eq_true_2 _ Hsome) in R2.
  assert (Hmem : forall h, h ∈ Checkpoint.processed cp1 <-> h = hB \/ h = hA)
    by (intros h; apply ResumeFacts.elem_of_mark2).
  assert (Hproc : Checkpoint.processed (Checkpoint.load (Checkpoint.save cp1 fs1) cpath) =
                  Checkpoint.processed cp1).
  { apply (ResumeFacts.load_save_fingerprints cp1 fs1).
    intros h Hh. apply Hmem in Hh as [-> | ->]; assumption. }
  assert (Hp : forall h, Checkpoint.is_processed
                 (Checkpoint.load (Checkpoint.save cp1 fs1) cpath) h =
                 bool_decide (h ∈ Checkpoint.processed cp1))
    by (intros h; unfold Checkpoint.is_processed; rewrite Hproc; reflexivity).
  rewrite !ResumeFacts.filter_unprocessed_cons, filter_nil in R2.
  cbn [snd] in R2. rewrite !Hp in R2.
  rewrite (bool_decide_eq_true_2 (hA ∈ _)) in R2 by (apply Hmem; auto).
  rewrite (bool_decide_eq_true_2 (hB ∈ _)) in R2 by (apply Hmem; auto).
  rewrite (bool_decide_eq_false_2 (hC ∈ _)) in R2 by (rewrite Hmem; tauto).
  specialize (R2 ltac:(discriminate)).
  destruct R2 as (Ok2 & _ & dm & df & M2 & F2 & L2 & Fm2 & Ff2 & new & Hn & Fn).
  split; [exact Ok1|]. split; [exact Ok2|]. split.
  - exists new. split; [exact Hn|].
    eapply Forall_impl; [exact Fn|]. intros u (a & [<- | []] & Hu). exact Hu.
  - rewrite M1 in M2. rewrite F1 in F2.
    eexists _, _, dm, df.
    split; [exact M1|]. split; [exact F1|]. split; [exact M2|]. split; [exact F2|].
    split; [exact L2|]. split.
    + eapply Forall_impl; [exact Fm2|]. intros r [Hr | []]. symmetry. exact Hr.
    + eapply Forall_impl; [exact Ff2|]. intros r [Hr | []]. symmetry. exact Hr.
Qed.

Lemma resume_skips_checkpointed_inputs_witness :
  (forall bs, Scenarios.sample_xxh3 bs < 2 ^ 64) /\
  Query.hash_affiliation Scenarios.sample_xxh3 "ccc" <>
    Query.hash_affiliation Scenarios.sample_xxh3 "a" /\
  Query.hash_affiliation Scenarios.sample_xxh3 "ccc" <>
    Query.hash_affiliation Scenarios.sample_xxh3 "bb" /\
  (let env := {| Query.server := Scenarios.srv_chosen; Query.io_fails := fun _ => false;
                Query.save_written := 0 |} in
   let args r := {| Query.output := "out"; Query.base_url := Scenarios.base;
                    Query.resume := r; Query.fallback_multi := false |} in
   let run1 := Query.run_async Scenarios.sample_xxh3 env (args false) ["a"; "bb"]
                 Scenarios.fresh_world in
   let run2 := Query.run_async Scenarios.sample_xxh3 env (args true) ["a"; "bb"; "ccc"]
                 (snd run1) in
   fst run1 = Client.Ok tt /\ fst run2 = Client.Ok tt /\
   (exists new, Client.requests (Query.net (snd run2)) =
                Client.requests (Query.net (snd run1)) ++ new /\
      Forall (fun u => In u (Client.query_urls Scenarios.base "ccc")) new) /\
   exists m1 f1 dm df,
     Query.matches_file (snd run1) = Some m1 /\ Query.failed_file (snd run1) = Some f1 /\
     Query.matches_file (snd run2) = Some (m1 ++ dm) /\
     Query.failed_file (snd run2) = Some (f1 ++ df) /\
     (length dm + length df = 1)%nat /\
     Forall (fun r => Query.affiliation r = "ccc") dm /\
     Forall (fun r => Query.failed_affiliation r = "ccc") df).
Proof.
  assert (Hu : forall bs, Scenarios.sample_xxh3 bs < 2 ^ 64)
    by (intros bs; apply N.mod_lt; discriminate).
  assert (H1 : Query.hash_affiliation Scenarios.sample_xxh3 "ccc" <>
               Query.hash_affiliation Scenarios.sample_xxh3 "a")
    by (intros H; vm_compute in H; discriminate H).
  assert (H2 : Query.hash_affiliation Scenarios.sample_xxh3 "ccc" <>
               Query.hash_affiliation Scenarios.sample_xxh3 "bb")
    by (intros H; vm_compute in H; discriminate H).
  split; [exact Hu|]. split; [exact H1|]. split; [exact H2|].
  exact (resume_skips_checkpointed_inputs Scenarios.sample_xxh3 Hu Scenarios.srv_chosen
           "out" Scenarios.base false Scenarios.fresh_world "a" "bb" "ccc" H1 H2).
Defined.


(** C7, counterexample: on an affiliation for which the registry has no
    candidate (fallback disabled, no I/O failure) the run writes one failure
    record and no match record, but its reason is ["No match found"], which
    differs from ["no match found"]. *)
Lemma no_match_reason_capitalised :
  let env := {| Query.server := Scenarios.srv_empty; Query.io_fails := fun _ => false;
                Query.save_written := 0 |} in
  let args := {| Query.output := "out"; Query.base_url := Scenarios.base;
                 Query.resume := false; Query.fallback_multi := false |} in
  let run := Query.run_async Scenarios.sample_xxh3 env args [Scenarios.test_aff]
               Scenarios.fresh_world in
  fst run = Client.Ok tt /\
  Query.matches_file (snd run) = Some [] /\
  Query.failed_file (snd run) =
    Some [{| Query.failed_affiliation := Scenarios.test_aff;
             Query.failed_affiliation_hash :=
               Query.hash_affiliation Scenarios.sample_xxh3 Scenarios.test_aff;
             Query.error := "No match found" |}] /\
  "No match found"%string <> "no match found"%string.
Proof.
  split; [vm_compute; reflexivity|]. split; [vm_compute; reflexivity|].
  split; [vm_compute; reflexivity|]. discriminate.
Qed.

(** C7, amended: when the client reports no match ([Ok None]) for the
    affiliation of a task and the sink write succeeds, the task appends
    exactly one failure record, with the affiliation, its fingerprint and
    the reason ["No match found"], to the failure sink, and leaves the match
    sink unchanged. *)
Theorem no_match_writes_one_failure (env : Query.Env) (args : Query.QueryArgs)
    (cp : Checkpoint.Checkpoint) (w : Query.World) (aff h : string)
    (tr : Client.trace) (f : list Query.RorMatchFailed) :
  Client.query_affiliation (Query.server env) (Query.base_url args) aff
    (Query.fallback_multi args) (Query.net w) = (Client.Ok None, tr) ->
  Query.io_fails env (Query.io_ops w) = false ->
  Query.failed_file w = Some f ->
  let w' := snd (Query.spawned_task env args (cp, w) (aff, h)) in
  Query.failed_file w' =
    Some (f ++ [{| Query.failed_affiliation := aff; Query.failed_affiliation_hash := h;
                   Query.error := "No match found" |}]) /\
  Query.matches_file w' = Query.matches_file w.
Proof.
  intros Hq Hio Hf w'. unfold w', Query.spawned_task. rewrite Hq.
  unfold Query.write_failed, Query.io. simpl. rewrite Hio. simpl.
  rewrite Hf. split; reflexivity.
Qed.

Lemma no_match_writes_one_failure_witness :
  let env := {| Query.server := Scenarios.srv_empty; Query.io_fails := fun _ => false;
                Query.save_written := 0 |} in
  let args := {| Query.output := "out"; Query.base_url := Scenarios.base;
                 Query.resume := false; Query.fallback_multi := false |} in
  let w := {| Query.files := ∅; Query.matches_file := Some []; Query.failed_file := Some [];
              Query.net := []; Query.io_ops := 0 |} in
  let tr := snd (Client.query_affiliation Scenarios.srv_empty Scenarios.base
                   Scenarios.test_aff false []) in
  Client.query_affiliation (Query.server env) (Query.base_url args) Scenarios.test_aff
    (Query.fallback_multi args) (Query.net w) = (Client.Ok None, tr) /\
  Query.io_fails env (Query.io_ops w) = false /\
  Query.failed_file w = Some [] /\
  (let w' := snd (Query.spawned_task env args (Checkpoint.new "cp", w)
                    (Scenarios.test_aff, "0123456789abcdef")) in
   Query.failed_file w' =
     Some ([] ++ [{| Query.failed_affiliation := Scenarios.test_aff;
                     Query.failed_affiliation_hash := "0123456789abcdef";
                     Query.error := "No match found" |}]) /\
   Query.matches_file w' = Query.matches_file w).
Proof.
  intros env args w tr.
  assert (Hq : Client.query_affiliation (Query.server env) (Query.base_url args)
                 Scenarios.test_aff (Query.fallback_multi args) (Query.net w) =
               (Client.Ok None, tr)) by (vm_compute; reflexivity).
  split; [exact Hq|]. split; [reflexivity|]. split; [reflexivity|].
  exact (no_match_writes_one_failure env args (Checkpoint.new "cp") w Scenarios.test_aff
           "0123456789abcdef" tr [] Hq eq_refl eq_refl).
Defined.

(* ================================================================== *)
(* Further properties of the client                                   *)
(* ================================================================== *)

Module ClientFacts3.
Import Client QueryFacts.

(** [t'] extends [t] by events whose requests all satisfy [S], at most [n]
    of them. *)
Definition ext (S : string -> Prop) (n : nat) (t t' : trace) : Prop :=
  exists ev, t' = t ++ ev /\ Forall S (requests ev) /\ (length (requests ev) <= n)%nat.

Lemma ext_refl S n t : ext S n t t.
Proof. exists []. rewrite app_nil_r. repeat split; [constructor | simpl; lia]. Qed.

Lemma ext_trans S n m t t' t'' : ext S n t t' -> ext S m t' t'' -> ext S (n + m) t t''.
Proof.
  intros (e1 & -> & F1 & L1) (e2 & -> & F2 & L2). exists (e1 ++ e2).
  rewrite <- app_assoc, requests_app, length_app.
  split; [reflexivity|]. split; [apply Forall_app; auto | lia].
Qed.

Lemma ext_weaken (S S' : string -> Prop) n m t t' :
  (forall u, S u -> S' u) -> (n <= m)%nat -> ext S n t t' -> ext S' m t t'.
Proof.
  intros HS Hn (e & -> & F & L). exists e.
  split; [reflexivity|]. split; [eapply Forall_impl; eauto | lia].
Qed.

(** The events of one [make_request]: between one and [fuel] requests, all
    to its URL. *)
Lemma make_request_loop_trace srv url (fuel : nat) : forall attempt tr,
  exists ev, snd (make_request_loop srv url attempt fuel tr) = tr ++ ev /\
    Forall (fun u => u = url) (requests ev) /\
    (length (requests ev) <= fuel)%nat /\ (fuel <> 0 -> 1 <= length (requests ev))%nat.
Proof.
  induction fuel as [|fuel IH]; intros attempt tr; simpl.
  - exists []. rewrite app_nil_r. repeat split; [constructor | simpl; lia | lia].
  - assert (Hone : exists ev, tr ++ [Request url] = tr ++ ev /\
              Forall (fun u => u = url) (requests ev) /\
              (length (requests ev) <= S fuel)%nat /\ (S fuel <> 0 -> 1 <= length (requests ev))%nat)
      by (exists [Request url]; repeat split; [repeat constructor | simpl; lia | simpl; lia]).
    assert (Hstep : forall s, exists ev,
              snd (make_request_loop srv url (S attempt) fuel (tr ++ [Request url] ++ [Sleep s])) =
              tr ++ ev /\ Forall (fun u => u = url) (requests ev) /\
              (length (requests ev) <= S fuel)%nat /\ (S fuel <> 0 -> 1 <= length (requests ev))%nat).
    { intros s. destruct (IH (S attempt) (tr ++ [Request url] ++ [Sleep s])) as (ev & Hev & F & L & _).
      exists ([Request url; Sleep s] ++ ev). rewrite Hev, <- !app_assoc.
      split; [reflexivity|]. simpl. repeat split; [constructor; auto | lia | lia]. }
    destruct (srv tr url) as [e|st ra body].
    + destruct (attempt <? 2)%nat; simpl; [|exact Hone].
      rewrite <- app_assoc. apply Hstep.
    + destruct (is_success st); [destruct body; exact Hone|].
      destruct (500 <=? st); [exact Hone|].
      destruct (st =? 429); [|exact Hone].
      rewrite <- app_assoc. apply Hstep.
Qed.

Lemma make_request_ext srv url t :
  ext (fun u => u = url) 3 t (snd (make_request srv url t)).
Proof.
  destruct (make_request_loop_trace srv url max_retries 0 t) as (ev & H & F & L & _).
  exists ev. auto.
Qed.

End ClientFacts3.

Module EncodeFacts.
Import Client.

Lemma upper_hex_digit_N (d : N) : d < 16 ->
  N_of_ascii (upper_hex_digit d) = if d <? 10 then 48 + d else 55 + d.
Proof.
  intros Hd. unfold upper_hex_digit.
  destruct (d <? 10); apply N_ascii_embedding; lia.
Qed.

Lemma upper_hex_digit_unreserved (d : N) : d < 16 ->
  url_unreserved (N_of_ascii (upper_hex_digit d)) = true.
Proof.
  intros Hd. rewrite upper_hex_digit_N by exact Hd. unfold url_unreserved.
  destruct (N.ltb_spec d 10).
  - assert (H1 : (48 <=? 48 + d) = true) by (apply N.leb_le; lia).
    assert (H2 : (48 + d <=? 57) = true) by (apply N.leb_le; lia).
    rewrite H1, H2. reflexivity.
  - assert (H1 : (65 <=? 55 + d) = true) by (apply N.leb_le; lia).
    assert (H2 : (55 + d <=? 90) = true) by (apply N.leb_le; lia).
    rewrite H1, H2, !orb_true_r. reflexivity.
Qed.

Lemma upper_hex_digit_inj (d1 d2 : N) : d1 < 16 -> d2 < 16 ->
  upper_hex_digit d1 = upper_hex_digit d2 -> d1 = d2.
Proof.
  intros H1 H2 E. apply (f_equal N_of_ascii) in E.
  rewrite !upper_hex_digit_N in E by assumption.
  destruct (N.ltb_spec d1 10), (N.ltb_spec d2 10); lia.
Qed.

Lemma percent_reserved : url_unreserved (N_of_ascii "%") = false.
Proof. reflexivity. Qed.

Lemma string_app_cancel_l (p x y : string) : (p ++ x = p ++ y)%string -> x = y.
Proof. induction p as [|c p IH]; simpl; [auto | intros E; injection E; auto]. Qed.

Lemma list_ascii_of_string_app (x y : string) :
  list_ascii_of_string (x ++ y) = list_ascii_of_string x ++ list_ascii_of_string y.
Proof. induction x as [|c x IH]; simpl; [reflexivity | now rewrite IH]. Qed.

Lemma string_app_cancel_r (x y s : string) : (x ++ s = y ++ s)%string -> x = y.
Proof.
  intros E. apply (f_equal list_ascii_of_string) in E.
  rewrite !list_ascii_of_string_app in E. apply app_inv_tail in E.
  rewrite <- (string_of_list_ascii_of_string x), <- (string_of_list_ascii_of_string y), E.
  reflexivity.
Qed.

End EncodeFacts.

(** [make_request] sends between one and three GET requests, all to its
    URL, and only appends to the trace. *)
Theorem make_request_bounded_attempts (srv : Client.Server) (url : string)
    (tr : Client.trace) :
  exists ev, snd (Client.make_request srv url tr) = tr ++ ev /\
    Forall (fun u => u = url) (Client.requests ev) /\
    (1 <= length (Client.requests ev) <= 3)%nat.
Proof.
  destruct (ClientFacts3.make_request_loop_trace srv url Client.max_retries 0 tr)
    as (ev & H & F & L & L1).
  exists ev. split; [exact H|]. split; [exact F|].
  unfold Client.max_retries in *. split; [apply L1; discriminate | exact L].
Qed.

(** A reply with a status that is neither 2xx nor 429 (a 4xx, a 5xx, or
    any other status such as 600) ends [make_request] at once with the
    error ["HTTP <status>"]: one request, no retry, no sleep. *)
Theorem make_request_client_error_final (srv : Client.Server) (url : string)
    (tr : Client.trace) (st : N) (ra : option string) (body : string + Client.RorResponse) :
  srv tr url = Client.Response st ra body ->
  Client.is_success st = false -> st <> 429 ->
  Client.make_request srv url tr =
  (Client.Err ("HTTP " ++ Client.status_display st)%string, tr ++ [Client.Request url]).
Proof.
  intros E Hs Hne. unfold Client.make_request. simpl. rewrite E, Hs.
  assert (H4 : (st =? 429) = false) by (apply N.eqb_neq; exact Hne).
  destruct (500 <=? st); [reflexivity|]. rewrite H4. reflexivity.
Qed.

Lemma make_request_client_error_final_witness :
  (fun (_ : Client.trace) (_ : string) => Client.Response 600 None (inl ""%string))
    [] "u" = Client.Response 600 None (inl ""%string) /\
  Client.is_success 600 = false /\ 600 <> 429 /\
  Client.make_request (fun _ _ => Client.Response 600 None (inl ""%string)) "u" [] =
  (Client.Err ("HTTP " ++ Client.status_display 600)%string, [] ++ [Client.Request "u"]).
Proof.
  split; [reflexivity|]. split; [reflexivity|]. split; [discriminate|].
  apply (make_request_client_error_final _ "u" [] 600 None (inl ""%string));
    [reflexivity | reflexivity | discriminate].
Defined.

(** A 2xx reply ends [make_request] after that one request: the chosen
    candidate's id (or none) for a body that decodes, the decoding error
    otherwise; a body that does not decode is not retried. *)
Theorem make_request_success_final (srv : Client.Server) (url : string)
    (tr : Client.trace) (st : N) (ra : option string) (body : string + Client.RorResponse) :
  srv tr url = Client.Response st ra body -> Client.is_success st = true ->
  Client.make_request srv url tr =
  (match body with
   | inl e => Client.Err e
   | inr r => Client.Ok (Client.extract_chosen_ror_id r)
   end, tr ++ [Client.Request url]).
Proof.
  intros E Hs. unfold Client.make_request. simpl. rewrite E, Hs.
  destruct body; reflexivity.
Qed.

Lemma make_request_success_final_witness :
  Scenarios.srv_chosen [] "u" = Client.Response 200 None (inr Scenarios.chosen_response) /\
  Client.is_success 200 = true /\
  Client.make_request Scenarios.srv_chosen "u" [] =
  (Client.Ok (Client.extract_chosen_ror_id Scenarios.chosen_response),
   [] ++ [Client.Request "u"]).
Proof.
  split; [reflexivity|]. split; [reflexivity|].
  exact (make_request_success_final Scenarios.srv_chosen "u" [] 200 None
           (inr Scenarios.chosen_response) eq_refl eq_refl).
Defined.

(** Transport errors are retried after 1 s and 2 s; when the third attempt
    fails too, its transport error is returned (not "Max retries
    exceeded"), whatever errors the earlier attempts had. *)
Theorem make_request_transport_retries (srv : Client.Server) (url : string)
    (tr : Client.trace) (e1 e2 e3 : string) :
  srv tr url = Client.TransportError e1 ->
  srv (tr ++ [Client.Request url; Client.Sleep 1]) url = Client.TransportError e2 ->
  srv (tr ++ [Client.Request url; Client.Sleep 1; Client.Request url; Client.Sleep 2]) url =
    Client.TransportError e3 ->
  Client.make_request srv url tr =
  (Client.Err e3, tr ++ [Client.Request url; Client.Sleep 1; Client.Request url;
                         Client.Sleep 2; Client.Request url]).
Proof.
  intros H1 H2 H3. unfold Client.make_request. simpl. rewrite H1. simpl.
  change (2 ^ N.of_nat 0) with 1. change (2 ^ N.of_nat 1) with 2.
  rewrite <- app_assoc. simpl. rewrite H2.
  rewrite <- !app_assoc. simpl. rewrite H3.
  reflexivity.
Qed.

Lemma make_request_transport_retries_witness :
  let srv := fun (t : Client.trace) (_ : string) =>
    Client.TransportError (if (length t =? 0)%nat then "refused"%string
                           else if (length t =? 2)%nat then "reset"%string
                           else "timeout"%string) in
  srv [] "u" = Client.TransportError "refused" /\
  srv [Client.Request "u"; Client.Sleep 1] "u" = Client.TransportError "reset" /\
  srv [Client.Request "u"; Client.Sleep 1; Client.Request "u"; Client.Sleep 2] "u" =
    Client.TransportError "timeout" /\
  Client.make_request srv "u" [] =
  (Client.Err "timeout", [] ++ [Client.Request "u"; Client.Sleep 1; Client.Request "u";
                                Client.Sleep 2; Client.Request "u"]).
Proof.
  intros srv. split; [reflexivity|]. split; [reflexivity|]. split; [reflexivity|].
  apply (make_request_transport_retries srv "u" [] "refused" "reset" "timeout");
    reflexivity.
Defined.

(** [query_affiliation] sends at most 6 requests with fallback disabled,
    all to the two [single_search] URLs, and at most 12 with fallback
    enabled, all to the four URLs of its affiliation. *)
Theorem query_affiliation_request_budget (srv : Client.Server) (b a : string)
    (fb : bool) (tr : Client.trace) :
  exists ev, snd (Client.query_affiliation srv b a fb tr) = tr ++ ev /\
    (length (Client.requests ev) <= if fb then 12 else 6)%nat /\
    Forall (fun u => In u (if fb then Client.query_urls b a
                           else [Client.quoted_single_url b a; Client.unquoted_single_url b a]))
      (Client.requests ev).
Proof.
  set (S := fun u => In u (if fb then Client.query_urls b a
                           else [Client.quoted_single_url b a; Client.unquoted_single_url b a])).
  assert (Hq1 : forall t, ClientFacts3.ext S 3 t
                  (snd (Client.make_request srv (Client.quoted_single_url b a) t))).
  { intros t. eapply ClientFacts3.ext_weaken; [|reflexivity|apply ClientFacts3.make_request_ext].
    intros u ->. unfold S. destruct fb; simpl; auto. }
  assert (Hq2 : forall t, ClientFacts3.ext S 3 t
                  (snd (Client.make_request srv (Client.unquoted_single_url b a) t))).
  { intros t. eapply ClientFacts3.ext_weaken; [|reflexivity|apply ClientFacts3.make_request_ext].
    intros u ->. unfold S. destruct fb; simpl; auto. }
  assert (Hp3 : forall t, ClientFacts3.ext S (if fb then 6 else 0) t
                  (snd (Client.phase3 srv b a fb t))).
  { intros t. unfold Client.phase3. destruct fb; [|apply ClientFacts3.ext_refl].
    destruct (Client.make_request srv (Client.quoted_multi_url b a) t) as [r t1] eqn:E.
    assert (H1 : ClientFacts3.ext S 3 t t1).
    { replace t1 with (snd (Client.make_request srv (Client.quoted_multi_url b a) t))
        by now rewrite E.
      eapply ClientFacts3.ext_weaken; [|reflexivity|apply ClientFacts3.make_request_ext].
      intros u ->. unfold S. simpl; auto. }
    destruct r as [x|e]; simpl.
    - eapply ClientFacts3.ext_weaken; [intros u Hu; exact Hu | | exact H1]. lia.
    - apply (ClientFacts3.ext_trans S 3 3 t t1); [exact H1|].
      eapply ClientFacts3.ext_weaken; [|reflexivity|apply ClientFacts3.make_request_ext].
      intros u ->. unfold S. simpl; auto. }
  assert (Hgoal : ClientFacts3.ext S (if fb then 12 else 6) tr
                    (snd (Client.query_affiliation srv b a fb tr))).
  { unfold Client.query_affiliation.
    destruct (Client.make_request srv (Client.quoted_single_url b a) tr) as [r1 t1] eqn:E1.
    assert (H1 : ClientFacts3.ext S 3 tr t1)
      by (replace t1 with (snd (Client.make_request srv (Client.quoted_single_url b a) tr))
            by (now rewrite E1); apply Hq1).
    assert (Hup : forall n t t', (n <= (if fb then 12 else 6) - 3)%nat ->
                   ClientFacts3.ext S n t1 t' -> t = tr -> ClientFacts3.ext S (if fb then 12 else 6) t t').
    { intros n t t' Hn H2 ->. eapply ClientFacts3.ext_weaken; [intros u Hu; exact Hu| |
        exact (ClientFacts3.ext_trans S 3 n tr t1 t' H1 H2)]. destruct fb; lia. }
    destruct r1 as [[x|]|e].
    - eapply (Hup 0%nat); [lia | apply ClientFacts3.ext_refl | reflexivity].
    - eapply Hup; [| apply Hp3 | reflexivity]. destruct fb; lia.
    - destruct (contains e "500").
      + destruct (Client.make_request srv (Client.unquoted_single_url b a) t1) as [r2 t2] eqn:E2.
        assert (H2 : ClientFacts3.ext S 3 t1 t2)
          by (replace t2 with (snd (Client.make_request srv (Client.unquoted_single_url b a) t1))
                by (now rewrite E2); apply Hq2).
        assert (H23 : forall t', ClientFacts3.ext S (if fb then 6 else 0) t2 t' ->
                        ClientFacts3.ext S (if fb then 12 else 6) tr t').
        { intros t' H3. eapply (Hup (3 + (if fb then 6 else 0))%nat);
            [destruct fb; lia | eapply ClientFacts3.ext_trans; eauto | reflexivity]. }
        destruct r2 as [[x|]|e2]; simpl.
        * apply H23, ClientFacts3.ext_refl.
        * apply H23, Hp3.
        * destruct fb; simpl; [apply H23, Hp3 | apply H23, ClientFacts3.ext_refl].
      + destruct fb; simpl.
        * eapply Hup; [| apply Hp3 | reflexivity]. lia.
        * eapply (Hup 0%nat); [lia | apply ClientFacts3.ext_refl | reflexivity]. }
  destruct Hgoal as (ev & H & F & L). exists ev. auto.
Qed.

Module FallbackFacts.
Import Client.

Lemma phase3_err srv b a t e :
  fst (phase3 srv b a true t) = Err e ->
  exists t', phase3 srv b a true t = make_request srv (unquoted_multi_url b a) t'.
Proof.
  unfold phase3. destruct (make_request srv (quoted_multi_url b a) t) as [[x|e1] t1].
  - simpl. discriminate.
  - intros _. exists t1. reflexivity.
Qed.

End FallbackFacts.

(** With fallback enabled, every error [query_affiliation] returns is the
    outcome of its last request, the unquoted broad one: errors of the
    earlier phases are never returned. *)
Theorem query_affiliation_fallback_error_is_last (srv : Client.Server) (b a : string)
    (tr : Client.trace) (e : string) :
  fst (Client.query_affiliation srv b a true tr) = Client.Err e ->
  exists t, Client.query_affiliation srv b a true tr =
            Client.make_request srv (Client.unquoted_multi_url b a) t.
Proof.
  unfold Client.query_affiliation.
  destruct (Client.make_request srv (Client.quoted_single_url b a) tr) as [r1 t1].
  destruct r1 as [[x|]|e1].
  - simpl. discriminate.
  - apply FallbackFacts.phase3_err.
  - destruct (contains e1 "500"); simpl; [|apply FallbackFacts.phase3_err].
    destruct (Client.make_request srv (Client.unquoted_single_url b a) t1) as [r2 t2].
    destruct r2 as [[x|]|e2]; simpl; [discriminate | apply FallbackFacts.phase3_err
                                      | apply FallbackFacts.phase3_err].
Qed.

Lemma query_affiliation_fallback_error_is_last_witness :
  fst (Client.query_affiliation Scenarios.srv_always_429 Scenarios.base Scenarios.test_aff
         true []) = Client.Err "Max retries exceeded" /\
  exists t, Client.query_affiliation Scenarios.srv_always_429 Scenarios.base
              Scenarios.test_aff true [] =
            Client.make_request Scenarios.srv_always_429
              (Client.unquoted_multi_url Scenarios.base Scenarios.test_aff) t.
Proof.
  assert (H : fst (Client.query_affiliation Scenarios.srv_always_429 Scenarios.base
                     Scenarios.test_aff true []) = Client.Err "Max retries exceeded")
    by (vm_compute; reflexivity).
  split; [exact H|].
  exact (query_affiliation_fallback_error_is_last _ _ _ [] _ H).
Defined.

(** [encode] writes only unreserved characters and ['%']: an encoded
    affiliation holds no quote, ['&'], ['='], ['#'] or space, so it cannot
    end the quoted value or start another query parameter. *)
Theorem encode_output_unreserved (s : string) :
  Forall (fun c => Client.url_unreserved (N_of_ascii c) = true \/ c = "%"%char)
    (list_ascii_of_string (Client.encode s)).
Proof.
  induction s as [|c s IH]; simpl; [constructor|].
  destruct (Client.url_unreserved (N_of_ascii c)) eqn:E; simpl.
  - constructor; auto.
  - pose proof (N_ascii_bounded c) as Hb.
    constructor; [right; reflexivity|].
    constructor; [left; apply EncodeFacts.upper_hex_digit_unreserved;
                  apply N.Div0.div_lt_upper_bound; lia|].
    constructor; [left; apply EncodeFacts.upper_hex_digit_unreserved;
                  apply N.mod_lt; discriminate|].
    exact IH.
Qed.

(** [encode] is injective: distinct affiliations are sent as distinct
    query values. *)
Theorem encode_injective (s1 s2 : string) :
  Client.encode s1 = Client.encode s2 -> s1 = s2.
Proof.
  revert s2. induction s1 as [|c1 s1 IH]; intros [|c2 s2]; simpl; auto.
  - destruct (Client.url_unreserved (N_of_ascii c2)); discriminate.
  - destruct (Client.url_unreserved (N_of_ascii c1)); discriminate.
  - destruct (Client.url_unreserved (N_of_ascii c1)) eqn:E1,
             (Client.url_unreserved (N_of_ascii c2)) eqn:E2; intros H.
    + injection H as -> H. f_equal. apply IH, H.
    + injection H as -> H. rewrite EncodeFacts.percent_reserved in E1. discriminate.
    + injection H as <- H. rewrite EncodeFacts.percent_reserved in E2. discriminate.
    + injection H as Hd Hm H. f_equal; [|apply IH, H].
      pose proof (N_ascii_bounded c1). pose proof (N_ascii_bounded c2).
      apply EncodeFacts.upper_hex_digit_inj in Hd;
        [|apply N.Div0.div_lt_upper_bound; lia | apply N.Div0.div_lt_upper_bound; lia].
      apply EncodeFacts.upper_hex_digit_inj in Hm;
        [|apply N.mod_lt; discriminate | apply N.mod_lt; discriminate].
      rewrite <- (ascii_N_embedding c1), <- (ascii_N_embedding c2). f_equal.
      rewrite (N.div_mod (N_of_ascii c1) 16), (N.div_mod (N_of_ascii c2) 16) by discriminate.
      rewrite Hd, Hm. reflexivity.
Qed.

Lemma encode_injective_witness :
  Client.encode "MIT & CMU" = Client.encode "MIT & CMU" /\ "MIT & CMU"%string = "MIT & CMU"%string.
Proof.
  split; [reflexivity|].
  exact (encode_injective "MIT & CMU" "MIT & CMU" eq_refl).
Defined.

(** A string of unreserved characters only (letters, digits, [-._~]) is
    sent unchanged. *)
Theorem encode_unreserved_identity (s : string) :
  Forall (fun c => Client.url_unreserved (N_of_ascii c) = true) (list_ascii_of_string s) ->
  Client.encode s = s.
Proof.
  induction s as [|c s IH]; simpl; intros H; [reflexivity|].
  inversion H as [|? ? Hc Hs]; subst. rewrite Hc. f_equal. apply IH, Hs.
Qed.

Lemma encode_unreserved_identity_witness :
  Forall (fun c => Client.url_unreserved (N_of_ascii c) = true)
    (list_ascii_of_string "MIT-CSAIL_2.0~") /\
  Client.encode "MIT-CSAIL_2.0~" = "MIT-CSAIL_2.0~"%string.
Proof.
  assert (H : Forall (fun c => Client.url_unreserved (N_of_ascii c) = true)
                (list_ascii_of_string "MIT-CSAIL_2.0~")) by (repeat constructor).
  split; [exact H | exact (encode_unreserved_identity _ H)].
Defined.

(** Each of the four request URLs determines its affiliation: two
    affiliations with the same URL (same base) are equal. *)
Theorem query_urls_injective (b a1 a2 : string) :
  (Client.quoted_single_url b a1 = Client.quoted_single_url b a2 -> a1 = a2) /\
  (Client.unquoted_single_url b a1 = Client.unquoted_single_url b a2 -> a1 = a2) /\
  (Client.quoted_multi_url b a1 = Client.quoted_multi_url b a2 -> a1 = a2) /\
  (Client.unquoted_multi_url b a1 = Client.unquoted_multi_url b a2 -> a1 = a2).
Proof.
  unfold Client.quoted_single_url, Client.unquoted_single_url,
    Client.quoted_multi_url, Client.unquoted_multi_url.
  repeat split; intros H; apply encode_injective;
    repeat apply EncodeFacts.string_app_cancel_l in H;
    try exact H; eapply EncodeFacts.string_app_cancel_r; exact H.
Qed.

(* ================================================================== *)
(* Further properties of the checkpoint and the orchestrator          *)
(* ================================================================== *)

Module CheckpointFacts2.
Import Checkpoint.

Lemma lines_crlf (hs : list string) :
  Forall (fun h => Forall (fun c => c <> newline) (list_ascii_of_string h)) hs ->
  lines (foldr (fun h acc => (h ++ String carriage_return (String newline acc))%string)
           EmptyString hs) = hs.
Proof.
  induction hs as [|h hs IH]; intros Hok; [reflexivity|].
  inversion Hok as [|? ? Hh Hhs]; subst. unfold lines. simpl.
  assert (E : forall rest, (h ++ String carriage_return (String newline rest))%string =
                           ((h ++ String carriage_return EmptyString) ++ String newline rest)%string).
  { intros rest.
    rewrite <- (string_of_list_ascii_of_string (h ++ _)%string),
      <- (string_of_list_ascii_of_string ((h ++ _) ++ _)%string),
      !EncodeFacts.list_ascii_of_string_app, <- app_assoc.
    reflexivity. }
  rewrite E, CheckpointFacts.lines_go_line.
  - rewrite app_nil_r, EncodeFacts.list_ascii_of_string_app, rev_app_distr. simpl.
    rewrite rev_involutive, string_of_list_ascii_of_string. f_equal. apply IH, Hhs.
  - rewrite EncodeFacts.list_ascii_of_string_app. apply Forall_app. split; [exact Hh|].
    constructor; [discriminate | constructor].
Qed.

End CheckpointFacts2.

Module RunFacts2.
Import Client Query.





Lemma filter_unprocessed_new (p : string) (l : list (string * string)) :
  filter (fun job => negb (Checkpoint.is_processed (Checkpoint.new p) (snd job))) l = l.
Proof.
  induction l as [|job l IH]; [reflexivity|].
  rewrite ResumeFacts.filter_unprocessed_cons, ResumeFacts.is_processed_new, IH.
  reflexivity.
Qed.

End RunFacts2.

(** [mark_processed] adds exactly its hash: afterwards that hash is
    processed, every other answer of [is_processed] is unchanged, and
    [len] grows by one unless the hash was already there. *)
Theorem checkpoint_mark_processed_effect (cp : Checkpoint.Checkpoint) (h h' : string) :
  Checkpoint.is_processed (Checkpoint.mark_processed cp h) h' =
    (String.eqb h' h || Checkpoint.is_processed cp h') /\
  Checkpoint.len (Checkpoint.mark_processed cp h) =
    (if Checkpoint.is_processed cp h then Checkpoint.len cp else S (Checkpoint.len cp)).
Proof.
  unfold Checkpoint.is_processed, Checkpoint.len, Checkpoint.mark_processed; simpl. split.
  - destruct (String.eqb_spec h' h) as [->|Hne]; simpl.
    + apply bool_decide_eq_true. set_solver.
    + apply bool_decide_ext. set_solver.
  - case_bool_decide as Hin.
    + f_equal. set_solver.
    + rewrite size_union by set_solver. rewrite size_singleton. reflexivity.
Qed.

(** [load] also reads files with Windows line ends: for lines without
    ["\n"], each written with ["\r\n"], the loaded checkpoint holds exactly
    the non-empty lines. *)
Theorem checkpoint_load_crlf (fs : Checkpoint.FS) (p : string) (hs : list string) :
  Forall (fun h => Forall (fun c => c <> Checkpoint.newline) (list_ascii_of_string h)) hs ->
  forall h,
    Checkpoint.is_processed
      (Checkpoint.load
         (<[p := foldr (fun h acc => (h ++ String Checkpoint.carriage_return
                                            (String Checkpoint.newline acc))%string)
                   EmptyString hs]> fs) p) h = true <->
    In h hs /\ h <> EmptyString.
Proof.
  intros Hok h. unfold Checkpoint.is_processed, Checkpoint.load.
  rewrite lookup_insert_eq. simpl.
  rewrite bool_decide_eq_true, CheckpointFacts.elem_of_insert_lines,
    CheckpointFacts2.lines_crlf by exact Hok.
  reflexivity.
Qed.

Lemma checkpoint_load_crlf_witness :
  Forall (fun h => Forall (fun c => c <> Checkpoint.newline) (list_ascii_of_string h))
    ["00000000000000ab"; ""; "0123456789abcdef"]%string /\
  (forall h,
    Checkpoint.is_processed
      (Checkpoint.load
         (<["cp" := foldr (fun h acc => (h ++ String Checkpoint.carriage_return
                                            (String Checkpoint.newline acc))%string)
                   EmptyString ["00000000000000ab"; ""; "0123456789abcdef"]%string]> ∅)
         "cp") h = true <->
    In h ["00000000000000ab"; ""; "0123456789abcdef"]%string /\ h <> EmptyString).
Proof.
  assert (H : Forall (fun h => Forall (fun c => c <> Checkpoint.newline) (list_ascii_of_string h))
                ["00000000000000ab"; ""; "0123456789abcdef"]%string)
    by (repeat constructor; discriminate).
  split; [exact H | exact (checkpoint_load_crlf ∅ "cp" _ H)].
Defined.





(** A run without resume and without I/O failure, on a non-empty input:
    it returns [Ok]; the saved checkpoint, loaded back, holds exactly the
    fingerprints of the input; both sinks are rewritten from empty and get
    one record per input entry (duplicates included), each about an input
    affiliation. *)
Theorem run_async_fresh_run (xxh3_64 : list Byte.byte -> N)
    (Hu64 : forall bs, xxh3_64 bs < 2 ^ 64) (env : Query.Env)
    (io_ok : forall n, Query.io_fails env n = false)
    (args : Query.QueryArgs) (affs : list string) (w0 : Query.World) :
  Query.resume args = false -> affs <> [] ->
  let run := Query.run_async xxh3_64 env args affs w0 in
  fst run = Client.Ok tt /\
  (forall h, Checkpoint.is_processed
               (Checkpoint.load (Query.files (snd run)) (Query.checkpoint_path args)) h = true <->
             exists a, In a affs /\ h = Query.hash_affiliation xxh3_64 a) /\
  exists dm df,
    Query.matches_file (snd run) = Some dm /\ Query.failed_file (snd run) = Some df /\
    (length dm + length df = length affs)%nat /\
    Forall (fun r => In (Query.affiliation r) affs) dm /\
    Forall (fun r => In (Query.failed_affiliation r) affs) df.
Proof.
  intros Hr Hne run.
  pose proof (RunFacts.run_async_no_io_failure xxh3_64 env io_ok args affs w0) as R.
  cbv zeta in R. rewrite Hr in R. cbn [andb] in R.
  rewrite RunFacts2.filter_unprocessed_new in R.
  rewrite length_map in R.
  assert (Hfst : map fst (map (fun aff => (aff, Query.hash_affiliation xxh3_64 aff)) affs) = affs)
    by (rewrite map_map; apply map_id).
  assert (Hsnd : map snd (map (fun aff => (aff, Query.hash_affiliation xxh3_64 aff)) affs) =
                 map (Query.hash_affiliation xxh3_64) affs)
    by (rewrite map_map; reflexivity).
  destruct R as (Ok & Files & dm & df & M & F & L & Fm & Ff & _);
    [destruct affs; [contradiction | discriminate] |].
  fold run in Ok, Files, M, F. rewrite Hsnd in Files.
  split; [exact Ok|]. split.
  - intros h. rewrite Files.
    set (cp := foldl Checkpoint.mark_processed (Checkpoint.new (Query.checkpoint_path args))
                 (map (Query.hash_affiliation xxh3_64) affs)).
    assert (Hp : Checkpoint.path cp = Query.checkpoint_path args)
      by apply CheckpointFacts.path_foldl_mark.
    assert (Hmem : forall x, x ∈ Checkpoint.processed cp <->
                             In x (map (Query.hash_affiliation xxh3_64) affs)).
    { intros x. unfold cp. rewrite CheckpointFacts.processed_foldl_mark. simpl. set_solver. }
    unfold Checkpoint.is_processed. rewrite <- Hp, ResumeFacts.load_save_fingerprints.
    + rewrite bool_decide_eq_true, Hmem, in_map_iff.
      split; intros (a & Ea & Ia); exists a; split; auto.
    + intros x Hx. apply Hmem, in_map_iff in Hx as (a & <- & _).
      apply ResumeFacts.hash_affiliation_fingerprint, Hu64.
  - exists dm, df. rewrite M, F.
    split; [destruct (Query.matches_file w0); reflexivity|].
    split; [destruct (Query.failed_file w0); reflexivity|].
    split; [exact L|]. rewrite Hfst in Fm, Ff. auto.
Qed.

Lemma run_async_fresh_run_witness :
  let env := {| Query.server := Scenarios.srv_chosen; Query.io_fails := fun _ => false;
                Query.save_written := 0 |} in
  let args := {| Query.output := "out"; Query.base_url := Scenarios.base;
                 Query.resume := false; Query.fallback_multi := false |} in
  let affs := ["a"; "bb"] in
  (forall bs, Scenarios.sample_xxh3 bs < 2 ^ 64) /\
  (forall n, Query.io_fails env n = false) /\
  Query.resume args = false /\ affs <> [] /\
  (let run := Query.run_async Scenarios.sample_xxh3 env args affs Scenarios.fresh_world in
   fst run = Client.Ok tt /\
   (forall h, Checkpoint.is_processed
                (Checkpoint.load (Query.files (snd run)) (Query.checkpoint_path args)) h = true <->
              exists a, In a affs /\ h = Query.hash_affiliation Scenarios.sample_xxh3 a) /\
   exists dm df,
     Query.matches_file (snd run) = Some dm /\ Query.failed_file (snd run) = Some df /\
     (length dm + length df = length affs)%nat /\
     Forall (fun r => In (Query.affiliation r) affs) dm /\
     Forall (fun r => In (Query.failed_affiliation r) affs) df).
Proof.
  intros env args affs.
  assert (Hu : forall bs, Scenarios.sample_xxh3 bs < 2 ^ 64)
    by (intros bs; apply N.mod_lt; discriminate).
  split; [exact Hu|]. split; [reflexivity|]. split; [reflexivity|].
  split; [discriminate|].
  exact (run_async_fresh_run Scenarios.sample_xxh3 Hu env (fun _ => eq_refl) args affs
           Scenarios.fresh_world eq_refl ltac:(discriminate)).
Defined.

Module ParserFacts.
Import Json Parser.
Section Loops.
Variable xxh3_64 : list Byte.byte -> N.

Lemma affiliation_loop_app d ai an k affs res res' :
  affiliation_loop xxh3_64 d ai an k affs (res ++ res') =
  res ++ affiliation_loop xxh3_64 d ai an k affs res'.
Proof.
  revert k res'. induction affs as [|a affs IH]; intros k res'; [reflexivity|].
  cbn [affiliation_loop].
  destruct (extract_affiliation_name a) as [n|]; [destruct (negb (String.eqb n ""))|];
    rewrite <- IH; f_equal; try reflexivity. symmetry. apply app_assoc.
Qed.

Lemma creator_loop_app d k creators res res' :
  creator_loop xxh3_64 d k creators (res ++ res') =
  res ++ creator_loop xxh3_64 d k creators res'.
Proof.
  revert k res'. induction creators as [|c cs IH]; intros k res'; [reflexivity|].
  cbn [creator_loop].
  destruct (extract_author_name c) as [an|]; [|apply IH].
  destruct (get c "affiliation") as [[]|]; try apply IH.
  rewrite affiliation_loop_app. apply IH.
Qed.

Lemma in_affiliation_loop d ai an k affs res r :
  In r (affiliation_loop xxh3_64 d ai an k affs res) <->
  In r res \/
  exists j a n, nth_error affs j = Some a /\ extract_affiliation_name a = Some n /\
    n <> "" /\
    r = {| doi := d; author_idx := ai; author_name := an; affiliation_idx := (k + j)%nat;
           affiliation := n; affiliation_hash := Lib.hash_affiliation xxh3_64 n |}.
Proof.
  revert k res. induction affs as [|a affs IH]; intros k res.
  - cbn. split; [auto|]. intros [H|(j & a & n & Hj & _)]; [exact H|].
    destruct j; discriminate.
  - cbn [affiliation_loop]. rewrite IH.
    assert (Hs : forall P : nat -> Prop, P (k + 0)%nat -> P k)
      by (intros P; rewrite Nat.add_0_r; auto).
    split.
    + intros [H|(j & a' & n & Hj & Hn & Hne & ->)].
      * destruct (extract_affiliation_name a) as [n|] eqn:En; [|auto].
        destruct (String.eqb n "") eqn:Ee; cbn [negb] in H; [auto|].
        apply in_app_iff in H as [H|[<-|[]]]; [auto|].
        right. exists 0%nat, a, n. rewrite Nat.add_0_r.
        repeat split; auto. intros ->. discriminate.
      * right. exists (S j), a', n. rewrite <- Nat.add_succ_comm. auto.
    + intros [H|(j & a' & n & Hj & Hn & Hne & ->)].
      * left. destruct (extract_affiliation_name a) as [n|]; [|exact H].
        destruct (negb (String.eqb n "")); [apply in_app_iff; auto | exact H].
      * destruct j as [|j].
        -- cbn in Hj. injection Hj as <-. left. rewrite Hn.
           apply String.eqb_neq in Hne. rewrite Hne. cbn [negb].
           apply in_app_iff. right. left. rewrite Nat.add_0_r. reflexivity.
        -- right. exists j, a', n. rewrite Nat.add_succ_comm. auto.
Qed.

Lemma in_creator_loop d k creators res r :
  In r (creator_loop xxh3_64 d k creators res) <->
  In r res \/
  exists j c an affs, nth_error creators j = Some c /\ extract_author_name c = Some an /\
    get c "affiliation" = Some (Array affs) /\
    In r (affiliation_loop xxh3_64 d (k + j) an 0 affs []).
Proof.
  revert k res. induction creators as [|c cs IH]; intros k res.
  - cbn. split; [auto|]. intros [H|(j & c & _ & _ & Hj & _)]; [exact H|].
    destruct j; discriminate.
  - cbn [creator_loop]. rewrite IH. split.
    + intros [H|(j & c' & an & affs & Hj & Ha & Hg & H)].
      * destruct (extract_author_name c) as [an|] eqn:Ea; [|auto].
        destruct (get c "affiliation") as [[]|] eqn:Eg; try auto.
        rewrite <- (app_nil_r res), affiliation_loop_app, in_app_iff in H.
        destruct H as [H|H]; [auto|].
        right. exists 0%nat, c, an, vs. rewrite Nat.add_0_r. auto.
      * right. exists (S j), c', an, affs. rewrite <- Nat.add_succ_comm. auto.
    + intros [H|(j & c' & an & affs & Hj & Ha & Hg & H)].
      * left. destruct (extract_author_name c); [|exact H].
        destruct (get c "affiliation") as [[]|]; try exact H.
        rewrite <- (app_nil_r res), affiliation_loop_app, in_app_iff. auto.
      * destruct j as [|j].
        -- cbn in Hj. injection Hj as <-. left. rewrite Ha, Hg.
           rewrite <- (app_nil_r res), affiliation_loop_app, in_app_iff.
           rewrite Nat.add_0_r in H. auto.
        -- right. exists j, c', an, affs. rewrite Nat.add_succ_comm. auto.
Qed.

End Loops.
End ParserFacts.

Module ParserFacts2.
Import Json Parser.

(** Lexicographic order on (author index, affiliation index). *)
Definition key_lt (r1 r2 : AuthorAffiliationRecord) : Prop :=
  (author_idx r1 < author_idx r2)%nat \/
  (author_idx r1 = author_idx r2 /\ (affiliation_idx r1 < affiliation_idx r2)%nat).

Lemma StronglySorted_snoc {A} (R : A -> A -> Prop) l y :
  StronglySorted R l -> (forall x, In x l -> R x y) -> StronglySorted R (l ++ [y]).
Proof.
  induction l as [|x l IH]; intros Hs Hy.
  - repeat constructor.
  - inversion Hs as [|? ? Hs' Hf]; subst. cbn. constructor.
    + apply IH; [exact Hs'|]. intros z Hz. apply Hy. right. exact Hz.
    + apply Forall_app. split; [exact Hf|]. constructor; [apply Hy; left; reflexivity|constructor].
Qed.

Section Loops.
Variable xxh3_64 : list Byte.byte -> N.

Lemma affiliation_loop_sorted d ai an k affs res :
  StronglySorted key_lt res ->
  (forall x, In x res -> (author_idx x < ai)%nat \/
                         (author_idx x = ai /\ (affiliation_idx x < k)%nat)) ->
  StronglySorted key_lt (affiliation_loop xxh3_64 d ai an k affs res) /\
  (forall x, In x (affiliation_loop xxh3_64 d ai an k affs res) ->
             (author_idx x < ai)%nat \/ author_idx x = ai).
Proof.
  revert k res. induction affs as [|a affs IH]; intros k res Hs Hb.
  - split; [exact Hs|]. intros x Hx. destruct (Hb x Hx) as [H|[H _]]; auto.
  - cbn [affiliation_loop].
    destruct (extract_affiliation_name a) as [n|];
      [destruct (negb (String.eqb n ""))|]; apply IH; try exact Hs.
    + apply StronglySorted_snoc; [exact Hs|]. intros x Hx. unfold key_lt. cbn.
      destruct (Hb x Hx) as [H|[H1 H2]]; [left; exact H | right; auto].
    + intros x Hx. apply in_app_iff in Hx as [Hx|[<-|[]]].
      * destruct (Hb x Hx) as [H|[H1 H2]]; [left; exact H | right; split; [exact H1|lia]].
      * right. cbn. split; [reflexivity|lia].
    + intros x Hx. destruct (Hb x Hx) as [H|[H1 H2]]; [left; exact H | right; split; [exact H1|lia]].
    + intros x Hx. destruct (Hb x Hx) as [H|[H1 H2]]; [left; exact H | right; split; [exact H1|lia]].
Qed.

Lemma creator_loop_sorted d k creators res :
  StronglySorted key_lt res -> (forall x, In x res -> (author_idx x < k)%nat) ->
  StronglySorted key_lt (creator_loop xxh3_64 d k creators res).
Proof.
  revert k res. induction creators as [|c cs IH]; intros k res Hs Hb; [exact Hs|].
  cbn [creator_loop].
  destruct (extract_author_name c) as [an|];
    [destruct (get c "affiliation") as [[]|]|]; apply IH; try exact Hs;
    try (intros x Hx; specialize (Hb x Hx); lia).
  - apply (affiliation_loop_sorted d k an 0 vs res Hs). intros x Hx. left. apply Hb, Hx.
  - intros x Hx.
    destruct (affiliation_loop_sorted d k an 0 vs res Hs) as [_ H];
      [intros y Hy; left; apply Hb, Hy|].
    destruct (H x Hx); lia.
Qed.

End Loops.

Lemma parse_sorted (xxh3_64 : list Byte.byte -> N) (record : Json.Value) :
  StronglySorted key_lt (Parser.parse_affiliations xxh3_64 record).
Proof.
  unfold Parser.parse_affiliations.
  destruct (Parser.extract_doi record) as [d|]; [|constructor].
  destruct (Json.pointer record "/attributes/creators") as [[]|]; try constructor.
  apply creator_loop_sorted; [constructor | intros _ []].
Qed.

Lemma sorted_keys_nodup (out : list Parser.AuthorAffiliationRecord) :
  StronglySorted key_lt out ->
  NoDup (map (fun r => (Parser.author_idx r, Parser.affiliation_idx r)) out).
Proof.
  induction 1 as [|x l Hs IH Hf]; cbn; constructor; [|exact IH].
  intros Hin. apply list_elem_of_In, in_map_iff in Hin as (y & Hxy & Hy).
  rewrite Forall_forall in Hf. specialize (Hf y (proj2 (list_elem_of_In l y) Hy)).
  injection Hxy as E1 E2. unfold key_lt in Hf. lia.
Qed.
End ParserFacts2.

(** [parse_affiliations] yields exactly one record per affiliation entry
    with a non-empty name, of a creator with a string name and an
    affiliation array, in the creators array of a record that has a DOI:
    no two records have the same creator and entry positions, and a record
    is in the output exactly when it is built from such an entry.  The
    record carries that DOI, the creator's position and name, the entry's
    position, the name and the fingerprint of the name. *)
Theorem parse_affiliations_records (xxh3_64 : list Byte.byte -> N) (record : Json.Value) :
  NoDup (map (fun r => (Parser.author_idx r, Parser.affiliation_idx r))
           (Parser.parse_affiliations xxh3_64 record)) /\
  forall r : Parser.AuthorAffiliationRecord,
  In r (Parser.parse_affiliations xxh3_64 record) <->
  exists d creators creator name affiliations a n,
    Parser.extract_doi record = Some d /\
    Json.pointer record "/attributes/creators" = Some (Json.Array creators) /\
    nth_error creators (Parser.author_idx r) = Some creator /\
    Parser.extract_author_name creator = Some name /\
    Json.get creator "affiliation" = Some (Json.Array affiliations) /\
    nth_error affiliations (Parser.affiliation_idx r) = Some a /\
    Parser.extract_affiliation_name a = Some n /\ n <> "" /\
    r = {| Parser.doi := d; Parser.author_idx := Parser.author_idx r;
           Parser.author_name := name; Parser.affiliation_idx := Parser.affiliation_idx r;
           Parser.affiliation := n; Parser.affiliation_hash := Lib.hash_affiliation xxh3_64 n |}.
Proof.
  split; [exact (ParserFacts2.sorted_keys_nodup _ (ParserFacts2.parse_sorted xxh3_64 record))|].
  intros r. unfold Parser.parse_affiliations. split.
  - destruct (Parser.extract_doi record) as [d|]; [|intros []].
    destruct (Json.pointer record "/attributes/creators") as [[]|] eqn:Ep; try intros [].
    intros H. apply ParserFacts.in_creator_loop in H as [[]|(j & c & an & affs & Hj & Ha & Hg & H)].
    apply ParserFacts.in_affiliation_loop in H as [[]|(k & a & n & Hk & Hn & Hne & Hr)].
    exists d, vs, c, an, affs, a, n. rewrite Hr. cbn. auto 10.
  - intros (d & creators & creator & name & affiliations & a & n &
            Hd & Hp & Hc & Hn & Hg & Ha & Han & Hne & Hr).
    rewrite Hd, Hp. apply ParserFacts.in_creator_loop. right.
    exists (Parser.author_idx r), creator, name, affiliations. split; [exact Hc|].
    split; [exact Hn|]. split; [exact Hg|].
    apply ParserFacts.in_affiliation_loop. right.
    exists (Parser.affiliation_idx r), a, n. auto.
Qed.

(** The records come out ordered by creator position, then by
    affiliation position, strictly: no two records share the same pair of
    positions. *)
Theorem parse_affiliations_ordered (xxh3_64 : list Byte.byte -> N) (record : Json.Value) :
  let out := Parser.parse_affiliations xxh3_64 record in
  StronglySorted ParserFacts2.key_lt out /\
  NoDup (map (fun r => (Parser.author_idx r, Parser.affiliation_idx r)) out).
Proof.
  intros out. pose proof (ParserFacts2.parse_sorted xxh3_64 record) as Hs.
  split; [exact Hs | exact (ParserFacts2.sorted_keys_nodup _ Hs)].
Qed.

(** A record without a DOI (neither a string [id] nor a string
    [attributes.doi]), or without a [creators] array under
    [attributes], yields no record. *)
Theorem parse_affiliations_missing_doi_or_creators (xxh3_64 : list Byte.byte -> N)
    (record : Json.Value) :
  Parser.extract_doi record = None \/
  (forall creators, Json.pointer record "/attributes/creators" <> Some (Json.Array creators)) ->
  Parser.parse_affiliations xxh3_64 record = [].
Proof.
  unfold Parser.parse_affiliations. intros [Hd|Hc].
  - rewrite Hd. reflexivity.
  - destruct (Parser.extract_doi record); [|reflexivity].
    destruct (Json.pointer record "/attributes/creators") as [[]|] eqn:Ep; try reflexivity.
    exfalso. exact (Hc vs eq_refl).
Qed.

Lemma parse_affiliations_missing_doi_or_creators_witness :
  Parser.extract_doi Scenarios.record_numeric_doi = None /\
  Parser.parse_affiliations Scenarios.sample_xxh3 Scenarios.record_numeric_doi = [].
Proof.
  split; [reflexivity|].
  apply (parse_affiliations_missing_doi_or_creators Scenarios.sample_xxh3
           Scenarios.record_numeric_doi).
  left. reflexivity.
Defined.

Module ExtractFacts.
Import Client Extract.
Section Facts.
Variable xxh3_64 : list Byte.byte -> N.
Variable from_str : string -> option Json.Value.
Variable trim_is_empty : string -> bool.
Variable batch_size : nat.

(** The records one text line contributes. *)
Definition line_records (s : string) : list Parser.AuthorAffiliationRecord :=
  if trim_is_empty s then []
  else match from_str s with
       | Some v => Parser.parse_affiliations xxh3_64 v
       | None => []
       end.

Definition affiliations_of (rs : list Parser.AuthorAffiliationRecord) : gset string :=
  list_to_set (map Parser.affiliation rs).

Lemma insert_affiliations_union u rs :
  insert_affiliations u rs = u ∪ affiliations_of rs.
Proof.
  unfold affiliations_of. revert u. induction rs as [|r rs IH]; intros u; cbn.
  - set_solver.
  - unfold insert_affiliations in *. cbn. rewrite IH. set_solver.
Qed.

Lemma affiliations_of_app rs1 rs2 :
  affiliations_of (rs1 ++ rs2) = affiliations_of rs1 ∪ affiliations_of rs2.
Proof. unfold affiliations_of. rewrite map_app, list_to_set_app_L. reflexivity. Qed.

Lemma lines_loop_ok (send_fails : nat -> bool) (ok : forall k, send_fails k = false)
    ls batch st :
  let res := lines_loop xxh3_64 from_str trim_is_empty send_fails batch_size (map inl ls) batch st in
  res.1.1 = Ok tt /\
  exists full, sent res.2 = sent st ++ full /\
    concat full ++ res.1.2 = batch ++ flat_map line_records ls /\
    Forall (fun b => batch_size <= length b)%nat full /\
    ((batch = [] \/ length batch < batch_size)%nat ->
     res.1.2 = [] \/ (length res.1.2 < batch_size)%nat) /\
    unique res.2 = unique st ∪ affiliations_of (flat_map line_records ls).
Proof.
  revert batch st. induction ls as [|s ls IH]; intros batch st.
  - cbn. split; [reflexivity|]. exists [].
    split; [rewrite app_nil_r; reflexivity|]. split; [cbn; rewrite app_nil_r; reflexivity|].
    split; [constructor|].
    split; [auto|]. unfold affiliations_of. cbn. set_solver.
  - cbn [map flat_map lines_loop].
    destruct (trim_is_empty s) eqn:Et.
    { assert (Hl : line_records s = []) by (unfold line_records; rewrite Et; reflexivity).
      rewrite Hl. apply IH. }
    destruct (from_str s) as [v|] eqn:Ev.
    2:{ assert (Hl : line_records s = [])
          by (unfold line_records; rewrite Et, Ev; reflexivity).
        rewrite Hl. apply IH. }
    assert (Hl : line_records s = Parser.parse_affiliations xxh3_64 v)
      by (unfold line_records; rewrite Et, Ev; reflexivity).
    rewrite Hl.
    set (affs := Parser.parse_affiliations xxh3_64 v).
    set (u' := if negb (bool_decide (affs = [])) then insert_affiliations (unique st) affs
               else unique st).
    assert (Hu : u' = unique st ∪ affiliations_of affs).
    { unfold u'. destruct (bool_decide (affs = [])) eqn:E; cbn [negb].
      - apply bool_decide_eq_true in E. rewrite E. unfold affiliations_of. cbn. set_solver.
      - apply insert_affiliations_union. }
    destruct (batch_size <=? length (batch ++ affs))%nat eqn:Eb.
    + rewrite ok.
      destruct (IH [] {| unique := u'; sent := sent st ++ [batch ++ affs] |})
        as (Hr & full & Hs & Hc & Hf & Hlen & Hun).
      split; [exact Hr|]. exists ([batch ++ affs] ++ full). cbn in Hs, Hun |- *.
      rewrite Hs, <- app_assoc. split; [reflexivity|].
      split; [rewrite <- !app_assoc, Hc; reflexivity|].
      split; [constructor; [apply Nat.leb_le, Eb | exact Hf]|].
      split; [intros _; apply Hlen; auto|].
      rewrite Hun, Hu, affiliations_of_app. set_solver.
    + destruct (IH (batch ++ affs) {| unique := u'; sent := sent st |})
        as (Hr & full & Hs & Hc & Hf & Hlen & Hun).
      split; [exact Hr|]. exists full. cbn in Hs, Hun |- *.
      split; [exact Hs|]. split; [rewrite Hc, app_assoc; reflexivity|].
      split; [exact Hf|].
      split; [intros _; apply Hlen; right; apply Nat.leb_gt, Eb|].
      rewrite Hun, Hu, affiliations_of_app. set_solver.
Qed.


Lemma process_file_ok_shape (send_fails : nat -> bool) (ok : forall k, send_fails k = false)
    ls st :
  let res := process_file xxh3_64 from_str trim_is_empty send_fails batch_size (map inl ls) st in
  res.1 = Ok tt /\
  exists full last, sent res.2 = sent st ++ full ++ last /\
    concat (full ++ last) = flat_map line_records ls /\
    Forall (fun b => batch_size <= length b)%nat full /\
    (last = [] \/ exists b, last = [b] /\ b <> [] /\ (length b < batch_size)%nat) /\
    unique res.2 = unique st ∪ affiliations_of (flat_map line_records ls).
Proof.
  unfold process_file.
  destruct (lines_loop_ok send_fails ok ls [] st) as (Hr & full & Hs & Hc & Hf & Hl & Hu).
  destruct (lines_loop xxh3_64 from_str trim_is_empty send_fails batch_size (map inl ls) [] st)
    as [[r b] st'].
  cbn in Hr, Hs, Hc, Hl, Hu |- *. subst r.
  destruct (bool_decide (b = [])) eqn:Eb; cbn [negb].
  - apply bool_decide_eq_true in Eb. subst b.
    split; [reflexivity|]. exists full, [].
    rewrite !app_nil_r. rewrite app_nil_r in Hc. auto 6.
  - apply bool_decide_eq_false in Eb. rewrite ok.
    split; [reflexivity|]. exists full, [b]. cbn.
    split; [rewrite Hs, <- app_assoc; reflexivity|].
    split; [rewrite concat_app; cbn; rewrite app_nil_r; exact Hc|].
    split; [exact Hf|].
    split; [right; exists b; destruct (Hl (or_introl eq_refl)); [contradiction|auto]|].
    exact Hu.
Qed.

Lemma lines_loop_app_ok (send_fails : nat -> bool) (ok : forall k, send_fails k = false)
    ls rest batch st :
  lines_loop xxh3_64 from_str trim_is_empty send_fails batch_size (map inl ls ++ rest) batch st =
  let '(_, b, st') :=
    lines_loop xxh3_64 from_str trim_is_empty send_fails batch_size (map inl ls) batch st in
  lines_loop xxh3_64 from_str trim_is_empty send_fails batch_size rest b st'.
Proof.
  revert batch st. induction ls as [|s ls IH]; intros batch st; [reflexivity|].
  cbn [map app lines_loop].
  destruct (trim_is_empty s); [apply IH|].
  destruct (from_str s); [|apply IH].
  destruct (_ <=? _)%nat; [rewrite ok|]; apply IH.
Qed.

Lemma lines_loop_zero (send_fails : nat -> bool) (ok : forall k, send_fails k = false)
    ls st :
  batch_size = 0%nat ->
  lines_loop xxh3_64 from_str trim_is_empty send_fails batch_size (map inl ls) [] st =
  (Ok tt, [], {| unique := unique st ∪ affiliations_of (flat_map line_records ls);
                 sent := sent st ++
                   flat_map (fun s => if trim_is_empty s then []
                                      else match from_str s with
                                           | Some v => [Parser.parse_affiliations xxh3_64 v]
                                           | None => []
                                           end) ls |}).
Proof.
  intros Hz. revert st. induction ls as [|s ls IH]; intros st.
  - cbn. rewrite app_nil_r. f_equal. destruct st as [u sn]. cbn. f_equal.
    unfold affiliations_of. cbn. set_solver.
  - cbn [map lines_loop flat_map]. unfold line_records at 1.
    destruct (trim_is_empty s); [rewrite IH; reflexivity|].
    destruct (from_str s) as [v|]; [|rewrite IH; reflexivity].
    assert (Hle : forall n, (batch_size <=? n)%nat = true) by (intros n; rewrite Hz; reflexivity).
    rewrite Hle, ok, IH. cbn. f_equal. f_equal.
    + rewrite affiliations_of_app.
      destruct (bool_decide (Parser.parse_affiliations xxh3_64 v = [])) eqn:E; cbn [negb].
      * apply bool_decide_eq_true in E. rewrite E. unfold affiliations_of. cbn. set_solver.
      * rewrite insert_affiliations_union. set_solver.
    + rewrite <- app_assoc. reflexivity.
Qed.

Lemma lines_loop_gone (send_fails : nat -> bool) (gone : forall k, send_fails k = true)
    ls batch st :
  let res := lines_loop xxh3_64 from_str trim_is_empty send_fails batch_size (map inl ls) batch st in
  res.1.1 = Ok tt /\ sent res.2 = sent st.
Proof.
  revert batch st. induction ls as [|s ls IH]; intros batch st; [split; reflexivity|].
  cbn [map lines_loop].
  destruct (trim_is_empty s); [apply IH|].
  destruct (from_str s); [|apply IH].
  destruct (_ <=? _)%nat; [rewrite gone; split; reflexivity|].
  match goal with
  | |- context [lines_loop _ _ _ _ _ _ ?b ?st'] => destruct (IH b st') as [H1 H2]
  end.
  split; [exact H1 | rewrite H2; reflexivity].
Qed.

End Facts.
End ExtractFacts.

(** When every send succeeds and every line reads, [process_file]
    returns [Ok], and the batches it delivers hold, in order, the records
    of the non-blank lines that parse as JSON; the unique set gains
    exactly their affiliations. *)
Theorem process_file_delivers_every_record (xxh3_64 : list Byte.byte -> N)
    (from_str : string -> option Json.Value) (trim_is_empty : string -> bool)
    (send_fails : nat -> bool) (batch_size : nat) (ls : list string) (st : Extract.FileState) :
  (forall k, send_fails k = false) ->
  let res := Extract.process_file xxh3_64 from_str trim_is_empty send_fails batch_size
               (map inl ls) st in
  fst res = Client.Ok tt /\
  exists new, Extract.sent (snd res) = Extract.sent st ++ new /\
    concat new = flat_map (ExtractFacts.line_records xxh3_64 from_str trim_is_empty) ls /\
    Extract.unique (snd res) = Extract.unique st ∪ ExtractFacts.affiliations_of (concat new).
Proof.
  intros ok res.
  destruct (ExtractFacts.process_file_ok_shape xxh3_64 from_str trim_is_empty batch_size
              send_fails ok ls st) as (Hr & full & last & Hs & Hc & _ & _ & Hu).
  split; [exact Hr|]. exists (full ++ last).
  split; [exact Hs|]. split; [exact Hc|]. rewrite Hc. exact Hu.
Qed.

Lemma process_file_delivers_every_record_witness :
  (forall k : nat, (fun _ => false) k = false) /\
  let res := Extract.process_file Scenarios.sample_xxh3 Scenarios.sample_from_str
               Scenarios.sample_trim_is_empty (fun _ => false) 2
               (map inl ["two"; " "; "bad"; "none"; "two"])
               {| Extract.unique := ∅; Extract.sent := [] |} in
  fst res = Client.Ok tt /\
  exists new, Extract.sent (snd res) = [] ++ new /\
    concat new = flat_map (ExtractFacts.line_records Scenarios.sample_xxh3
                             Scenarios.sample_from_str Scenarios.sample_trim_is_empty)
                          ["two"; " "; "bad"; "none"; "two"] /\
    Extract.unique (snd res) = ∅ ∪ ExtractFacts.affiliations_of (concat new).
Proof.
  split; [reflexivity|].
  exact (process_file_delivers_every_record Scenarios.sample_xxh3 Scenarios.sample_from_str
           Scenarios.sample_trim_is_empty (fun _ => false) 2 ["two"; " "; "bad"; "none"; "two"]
           {| Extract.unique := ∅; Extract.sent := [] |} (fun _ => eq_refl)).
Defined.

(** When every send succeeds and every line reads, each batch
    [process_file] delivers holds at least [batch_size] records, except a
    last one, sent after the loop, which is non-empty and shorter. *)
Theorem process_file_batch_sizes (xxh3_64 : list Byte.byte -> N)
    (from_str : string -> option Json.Value) (trim_is_empty : string -> bool)
    (send_fails : nat -> bool) (batch_size : nat) (ls : list string) (st : Extract.FileState) :
  (forall k, send_fails k = false) ->
  let res := Extract.process_file xxh3_64 from_str trim_is_empty send_fails batch_size
               (map inl ls) st in
  exists full last, Extract.sent (snd res) = Extract.sent st ++ full ++ last /\
    Forall (fun b => batch_size <= length b)%nat full /\
    (last = [] \/ exists b, last = [b] /\ b <> [] /\ (length b < batch_size)%nat).
Proof.
  intros ok res.
  destruct (ExtractFacts.process_file_ok_shape xxh3_64 from_str trim_is_empty batch_size
              send_fails ok ls st) as (_ & full & last & Hs & _ & Hf & Hl & _).
  exists full, last. auto.
Qed.

Lemma process_file_batch_sizes_witness :
  (forall k : nat, (fun _ => false) k = false) /\
  let res := Extract.process_file Scenarios.sample_xxh3 Scenarios.sample_from_str
               Scenarios.sample_trim_is_empty (fun _ => false) 3
               (map inl ["two"; "two"; "two"])
               {| Extract.unique := ∅; Extract.sent := [] |} in
  exists full last, Extract.sent (snd res) = [] ++ full ++ last /\
    Forall (fun b => 3 <= length b)%nat full /\
    (last = [] \/ exists b, last = [b] /\ b <> [] /\ (length b < 3)%nat).
Proof.
  split; [reflexivity|].
  exact (process_file_batch_sizes Scenarios.sample_xxh3 Scenarios.sample_from_str
           Scenarios.sample_trim_is_empty (fun _ => false) 3 ["two"; "two"; "two"]
           {| Extract.unique := ∅; Extract.sent := [] |} (fun _ => eq_refl)).
Defined.

(** With [batch_size = 0], when every send succeeds and every line
    reads, [process_file] sends one batch per non-blank line that parses,
    holding that line's records, empty batches included, and nothing
    after the loop. *)
Theorem process_file_zero_batch_size (xxh3_64 : list Byte.byte -> N)
    (from_str : string -> option Json.Value) (trim_is_empty : string -> bool)
    (send_fails : nat -> bool) (ls : list string) (st : Extract.FileState) :
  (forall k, send_fails k = false) ->
  let res := Extract.process_file xxh3_64 from_str trim_is_empty send_fails 0
               (map inl ls) st in
  fst res = Client.Ok tt /\
  Extract.sent (snd res) =
    Extract.sent st ++
    flat_map (fun s => if trim_is_empty s then []
                       else match from_str s with
                            | Some v => [Parser.parse_affiliations xxh3_64 v]
                            | None => []
                            end) ls.
Proof.
  intros ok res. unfold res, Extract.process_file.
  rewrite (ExtractFacts.lines_loop_zero xxh3_64 from_str trim_is_empty 0 send_fails ok ls st
             eq_refl).
  split; reflexivity.
Qed.

Lemma process_file_zero_batch_size_witness :
  (forall k : nat, (fun _ => false) k = false) /\
  let res := Extract.process_file Scenarios.sample_xxh3 Scenarios.sample_from_str
               Scenarios.sample_trim_is_empty (fun _ => false) 0
               (map inl ["none"; "two"])
               {| Extract.unique := ∅; Extract.sent := [] |} in
  fst res = Client.Ok tt /\
  Extract.sent (snd res) =
    [] ++ [[]; Parser.parse_affiliations Scenarios.sample_xxh3 Scenarios.record_two_affs].
Proof.
  split; [reflexivity|].
  exact (process_file_zero_batch_size Scenarios.sample_xxh3 Scenarios.sample_from_str
           Scenarios.sample_trim_is_empty (fun _ => false) ["none"; "two"]
           {| Extract.unique := ∅; Extract.sent := [] |} (fun _ => eq_refl)).
Defined.

(** A read error makes [process_file] return that error at once: the
    records read since the last delivered batch (fewer than
    [batch_size]) are never sent, while their affiliations are already
    in the unique set. *)
Theorem process_file_read_error_drops_pending (xxh3_64 : list Byte.byte -> N)
    (from_str : string -> option Json.Value) (trim_is_empty : string -> bool)
    (send_fails : nat -> bool) (batch_size : nat) (ls : list string) (e : string)
    (rest : list (string + string)) (st : Extract.FileState) :
  (forall k, send_fails k = false) ->
  let res := Extract.process_file xxh3_64 from_str trim_is_empty send_fails batch_size
               (map inl ls ++ inr e :: rest) st in
  fst res = Client.Err e /\
  exists new lost, Extract.sent (snd res) = Extract.sent st ++ new /\
    concat new ++ lost = flat_map (ExtractFacts.line_records xxh3_64 from_str trim_is_empty) ls /\
    (lost = [] \/ (length lost < batch_size)%nat) /\
    Extract.unique (snd res) =
      Extract.unique st ∪ ExtractFacts.affiliations_of (concat new ++ lost).
Proof.
  intros ok res. unfold res, Extract.process_file.
  rewrite (ExtractFacts.lines_loop_app_ok xxh3_64 from_str trim_is_empty batch_size
             send_fails ok).
  destruct (ExtractFacts.lines_loop_ok xxh3_64 from_str trim_is_empty batch_size
              send_fails ok ls [] st) as (_ & full & Hs & Hc & _ & Hl & Hu).
  destruct (Extract.lines_loop xxh3_64 from_str trim_is_empty send_fails batch_size
              (map inl ls) [] st) as [[r b] st'].
  cbn in Hs, Hc, Hl, Hu |- *.
  split; [reflexivity|]. exists full, b.
  split; [exact Hs|]. split; [exact Hc|]. split; [apply Hl; left; reflexivity|].
  rewrite Hc. exact Hu.
Qed.

Lemma process_file_read_error_drops_pending_witness :
  (forall k : nat, (fun _ => false) k = false) /\
  let res := Extract.process_file Scenarios.sample_xxh3 Scenarios.sample_from_str
               Scenarios.sample_trim_is_empty (fun _ => false) 3
               (map inl ["two"] ++ inr "invalid gzip header" :: [])
               {| Extract.unique := ∅; Extract.sent := [] |} in
  fst res = Client.Err "invalid gzip header" /\
  exists new lost, Extract.sent (snd res) = [] ++ new /\
    concat new ++ lost = flat_map (ExtractFacts.line_records Scenarios.sample_xxh3
                                     Scenarios.sample_from_str Scenarios.sample_trim_is_empty)
                                  ["two"] /\
    (lost = [] \/ (length lost < 3)%nat) /\
    Extract.unique (snd res) = ∅ ∪ ExtractFacts.affiliations_of (concat new ++ lost).
Proof.
  split; [reflexivity|].
  exact (process_file_read_error_drops_pending Scenarios.sample_xxh3 Scenarios.sample_from_str
           Scenarios.sample_trim_is_empty (fun _ => false) 3 ["two"] "invalid gzip header" []
           {| Extract.unique := ∅; Extract.sent := [] |} (fun _ => eq_refl)).
Defined.

(** When the receiving end of the channel is gone, [process_file] still
    returns [Ok] on a readable file, and delivers nothing. *)
Theorem process_file_receiver_gone (xxh3_64 : list Byte.byte -> N)
    (from_str : string -> option Json.Value) (trim_is_empty : string -> bool)
    (send_fails : nat -> bool) (batch_size : nat) (ls : list string) (st : Extract.FileState) :
  (forall k, send_fails k = true) ->
  let res := Extract.process_file xxh3_64 from_str trim_is_empty send_fails batch_size
               (map inl ls) st in
  fst res = Client.Ok tt /\ Extract.sent (snd res) = Extract.sent st.
Proof.
  intros gone res. unfold res, Extract.process_file.
  destruct (ExtractFacts.lines_loop_gone xxh3_64 from_str trim_is_empty batch_size
              send_fails gone ls [] st) as [Hr Hs].
  destruct (Extract.lines_loop xxh3_64 from_str trim_is_empty send_fails batch_size
              (map inl ls) [] st) as [[r b] st'].
  cbn in Hr, Hs. subst r.
  destruct (negb (bool_decide (b = []))); [rewrite gone|]; split; auto.
Qed.

Lemma process_file_receiver_gone_witness :
  (forall k : nat, (fun _ => true) k = true) /\
  let res := Extract.process_file Scenarios.sample_xxh3 Scenarios.sample_from_str
               Scenarios.sample_trim_is_empty (fun _ => true) 1
               (map inl ["two"; "none"])
               {| Extract.unique := ∅; Extract.sent := [] |} in
  fst res = Client.Ok tt /\ Extract.sent (snd res) = [].
Proof.
  split; [reflexivity|].
  exact (process_file_receiver_gone Scenarios.sample_xxh3 Scenarios.sample_from_str
           Scenarios.sample_trim_is_empty (fun _ => true) 1 ["two"; "none"]
           {| Extract.unique := ∅; Extract.sent := [] |} (fun _ => eq_refl)).
Defined.
